(** * A backtracking CSP solver (main.py), embedded and verified

    The Python class [CSP] keeps three fields that nothing reassigns after
    [__init__] (variables, domains, constraints), one [defaultdict(list)]
    ([neighbors]) and, during [solve()], one shared [assignment] dict that the
    whole recursion mutates in place.  The embedding keeps the fields in a
    record and threads the two mutable dictionaries through a
    state-and-exception monad, so that in-place updates, their undoing and the
    Python exceptions ([KeyError], [ValueError], whatever a predicate raises)
    are all visible in the model.

    Dictionaries are finite maps: the insertion order of a dict, which only
    printing shows, is not modelled.  Neither is the interpreter's recursion
    limit; the depth of the recursion is at most the number of variables plus
    one. *)

From Stdlib Require Import ZArith String List Lia.
From stdpp Require Import gmap strings list fin_maps sorting.

(** ** Data model *)

(** A constraint is a pair of a tuple of variable names and a callable.  The
    callable is applied to the unpacked values of the tuple;
    [None] stands for a call that raises (a [TypeError] when the arity does not
    fit the tuple, or anything the body raises). *)
Record constraint := Constraint {
  c_vars : list string;
  condition : list Z → option bool
}.

(** The object after [__init__].  [neighbors] is the content of the
    [defaultdict(list)]. *)
Record CSP := MkCSP {
  variables : list string;
  domains : gmap string (list Z);
  constraints : list constraint;
  neighbors : gmap string (list string)
}.

(** ** Exceptions and outcomes *)

Inductive exn :=
  | KeyError (k : string)      (* [d[k]] or [del d[k]] on a missing key *)
  | ValueError                  (* [max()] of an empty sequence *)
  | CallRaised.                 (* a constraint predicate raised *)

Inductive outcome (A : Type) :=
  | Ok (a : A)
  | Raise (e : exn)
  | OutOfFuel.
Arguments Ok {A} a.
Arguments Raise {A} e.
Arguments OutOfFuel {A}.

(** ** The mutable store

    [self_neighbors] is [self.neighbors]; [assignment] is the single dict that
    [solve()] creates; [entered] is a history variable that the source does
    not have: it records the assignment seen at the entry of every call of
    [_recursive_backtracking], and nothing ever reads it. *)
Record store := Store {
  self_neighbors : gmap string (list string);
  assignment : gmap string Z;
  entered : list (gmap string Z)
}.

Definition M (A : Type) : Type := store → outcome A * store.

Definition ret {A} (a : A) : M A := λ s, (Ok a, s).

Definition raise {A} (e : exn) : M A := λ s, (Raise e, s).

Definition bind {A B} (m : M A) (k : A → M B) : M B :=
  λ s, match m s with
       | (Ok a, s') => k a s'
       | (Raise e, s') => (Raise e, s')
       | (OutOfFuel, s') => (OutOfFuel, s')
       end.

Notation "x <- c ;; k" := (bind c (λ x, k))
  (at level 100, c at next level, right associativity).
Notation "c ;;; k" := (bind c (λ _, k))
  (at level 100, right associativity).

(** [assignment] read as a whole (for [in], [.get] and [len]). *)
Definition get_assignment : M (gmap string Z) := λ s, (Ok (assignment s), s).

(** [assignment[k] = v] *)
Definition setitem (k : string) (v : Z) : M unit :=
  λ s, (Ok tt, Store (self_neighbors s) (<[k := v]> (assignment s)) (entered s)).

(** [del assignment[k]]: a [KeyError] when [k] is not bound. *)
Definition delitem (k : string) : M unit :=
  λ s, match assignment s !! k with
       | Some _ => (Ok tt, Store (self_neighbors s) (delete k (assignment s)) (entered s))
       | None => (Raise (KeyError k), s)
       end.

(** [self.neighbors[v]] on the [defaultdict(list)]: a missing key is inserted
    with a fresh empty list, which is also the value returned. *)
Definition neighbors_getitem (v : string) : M (list string) :=
  λ s, match self_neighbors s !! v with
       | Some l => (Ok l, s)
       | None => (Ok [], Store (<[v := []]> (self_neighbors s)) (assignment s) (entered s))
       end.

(** [self.domains[v]] on a plain dict. *)
Definition domains_getitem (self : CSP) (v : string) : M (list Z) :=
  match domains self !! v with
  | Some d => ret d
  | None => raise (KeyError v)
  end.

(** The history variable: note the assignment at the entry of a call. *)
Definition log_entry : M unit :=
  λ s, (Ok tt, Store (self_neighbors s) (assignment s) (entered s ++ [assignment s])).

(** A comprehension or generator whose body has effects, run left to right. *)
Fixpoint map_m {A B} (f : A → M B) (l : list A) : M (list B) :=
  match l with
  | [] => ret []
  | x :: l' => y <- f x ;; ys <- map_m f l' ;; ret (y :: ys)
  end.

(** A [for] loop that carries an accumulator. *)
Fixpoint fold_m {A B} (f : B → A → M B) (b : B) (l : list A) : M B :=
  match l with
  | [] => ret b
  | x :: l' => b' <- f b x ;; fold_m f b' l'
  end.

(** ** [sorted(..., key=...)] and [max(..., key=...)]

    Python computes the key of every element once, in list order, and sorts
    stably; any stable sort gives the same list, here by insertion. [max]
    keeps the first element whose key no later one exceeds. *)
Fixpoint insert_by_key {A} (x : nat * A) (l : list (nat * A)) : list (nat * A) :=
  match l with
  | [] => [x]
  | y :: l' => if (y.1 <? x.1)%nat then y :: insert_by_key x l' else x :: y :: l'
  end.

Definition sorted_by_key {A} (keyed : list (nat * A)) : list A :=
  (foldr insert_by_key [] keyed).*2.

Fixpoint max_from {A} (best : nat * A) (l : list (nat * A)) : A :=
  match l with
  | [] => best.2
  | y :: l' => if (best.1 <? y.1)%nat then max_from y l' else max_from best l'
  end.

Definition max_by_key {A} (keyed : list (nat * A)) : option A :=
  match keyed with
  | [] => None
  | x :: l => Some (max_from x l)
  end.

(** The order [sorted] sorts by. *)
Definition key_le {A} : relation (nat * A) := λ p q, p.1 ≤ q.1.

(** ** [_create_constraint_graph] *)

(** [g[var].extend(others)] on the defaultdict. *)
Definition extend (g : gmap string (list string)) (var : string) (others : list string)
  : gmap string (list string) :=
  <[var := default [] (g !! var) ++ others]> g.

(** Lines 22-24, started on the defaultdict [g] (empty in [__init__]). *)
Definition _create_constraint_graph (cs : list constraint)
    (g : gmap string (list string)) : gmap string (list string) :=
  foldl (λ g c,
           foldl (λ g var, extend g var (filter (λ v, v ≠ var) (c_vars c))) g (c_vars c))
        g cs.

Definition __init__ (variables : list string) (domains : gmap string (list Z))
    (constraints : list constraint) : CSP :=
  MkCSP variables domains constraints (_create_constraint_graph constraints ∅).

(** ** [_is_assignment_valid] *)

(** [values = [assignment.get(v, None) for v in vars_]] *)
Definition get_values (a : gmap string Z) (vars_ : list string) : list (option Z) :=
  (λ v, a !! v) <$> vars_.

(** The [for] loop of lines 31-36 on the tentative assignment [a]: [Ok false]
    is the early [return False], [Ok true] is falling out of the loop.  Both
    ways out run [del assignment[variable]] first (lines 35 and 37), which
    [_is_assignment_valid] below does once, after the loop. *)
Fixpoint check_constraints (variable : string) (cs : list constraint)
    (a : gmap string Z) : outcome bool :=
  match cs with
  | [] => Ok true
  | c :: rest =>
      if bool_decide (variable ∈ c_vars c) then
        let values := get_values a (c_vars c) in
        if bool_decide (None ∈ values) then check_constraints variable rest a
        else match condition c (omap id values) with
             | None => Raise CallRaised
             | Some true => check_constraints variable rest a
             | Some false => Ok false
             end
      else check_constraints variable rest a
  end.

Definition read {A} (f : gmap string Z → outcome A) : M A :=
  λ s, (f (assignment s), s).

(** Lines 30-38. *)
Definition _is_assignment_valid (self : CSP) (variable : string) (value : Z) : M bool :=
  setitem variable value ;;;
  ok <- read (check_constraints variable (constraints self)) ;;
  delitem variable ;;;
  ret ok.

(** ** [_select_next_variable] *)

(** Lines 46-50.  The keys of [sorted] are [len(self.domains[v])], a
    [KeyError] for a variable without a domain; the keys of [max] are
    [len(self.neighbors[v])], each a lookup in the defaultdict; [max] of an
    empty list is a [ValueError]. *)
Definition _select_next_variable (self : CSP) : M string :=
  a <- get_assignment ;;
  let unassigned := filter (λ v, v ∉ dom a) (variables self) in
  sizes <- map_m (λ v, d <- domains_getitem self v ;; ret (length d)) unassigned ;;
  let min_domain_vars := sorted_by_key (zip sizes unassigned) in
  degrees <- map_m (λ v, n <- neighbors_getitem v ;; ret (length n)) min_domain_vars ;;
  match max_by_key (zip degrees min_domain_vars) with
  | Some v => ret v
  | None => raise ValueError
  end.

(** ** [_order_values_by_least_conflicts] *)

(** The inner function of lines 56-66: the tentative binding, the loop over
    [self.neighbors[variable]] that sums, for every neighbor not in the
    assignment, the number of its domain values the checker rejects, and the
    [del] that takes the binding back. *)
Definition count_conflicts (self : CSP) (variable : string) (value : Z) : M nat :=
  setitem variable value ;;;
  nbs <- neighbors_getitem variable ;;
  conflict_count <-
    fold_m (λ conflict_count neighbor,
              a <- get_assignment ;;
              if bool_decide (neighbor ∈ dom a) then ret conflict_count
              else
                d <- domains_getitem self neighbor ;;
                oks <- map_m (_is_assignment_valid self neighbor) d ;;
                ret (conflict_count + length (filter (λ ok, ok = false) oks))%nat)
           0%nat nbs ;;
  delitem variable ;;;
  ret conflict_count.

(** Line 68: [self.domains[variable]] sorted by [count_conflicts]. *)
Definition _order_values_by_least_conflicts (self : CSP) (variable : string) : M (list Z) :=
  d <- domains_getitem self variable ;;
  keys <- map_m (count_conflicts self variable) d ;;
  ret (sorted_by_key (zip keys d)).

(** ** [_recursive_backtracking] and [solve] *)

(** What a call returns: the shared [assignment] object itself, or [None]. *)
Inductive result := RAssignment | RNone.

(** [if result:] a dict is true when it is not empty, [None] is false. *)
Definition truthy (r : result) : M bool :=
  match r with
  | RAssignment => a <- get_assignment ;; ret (negb (bool_decide (a = ∅)))
  | RNone => ret false
  end.

(** The [for value in ...] loop of lines 79-85; [rec] is the recursive call. *)
Fixpoint try_values (self : CSP) (rec : M result) (variable : string)
    (values : list Z) : M result :=
  match values with
  | [] => ret RNone
  | value :: rest =>
      ok <- _is_assignment_valid self variable value ;;
      if ok then
        setitem variable value ;;;
        r <- rec ;;
        t <- truthy r ;;
        if t then ret r
        else delitem variable ;;; try_values self rec variable rest
      else try_values self rec variable rest
  end.

(** The body of [_recursive_backtracking] (lines 74-87), with the recursive
    call as a parameter. *)
Definition backtrack (self : CSP) (rec : M result) : M result :=
  a <- get_assignment ;;
  if bool_decide (size a = length (variables self)) then ret RAssignment
  else
    variable <- _select_next_variable self ;;
    values <- _order_values_by_least_conflicts self variable ;;
    try_values self rec variable values.

(** Python's recursion becomes recursion on [fuel]; [solve] gives it more
    than the deepest chain of calls can use (see [solve_has_fuel]).  Every
    call first notes the assignment it is entered with. *)
Fixpoint _recursive_backtracking (self : CSP) (fuel : nat) : M result :=
  match fuel with
  | O => λ s, (OutOfFuel, s)
  | S fuel' => log_entry ;;; backtrack self (_recursive_backtracking self fuel')
  end.

(** [solve()] run on the object [self]: the outcome and the final store. *)
Definition run_solve (self : CSP) : outcome result * store :=
  _recursive_backtracking self (S (length (variables self)))
    (Store (neighbors self) ∅ []).

(** What the caller of [solve()] gets: the returned dict (or [None]), and the
    object with its [neighbors] as the call left them. *)
Definition solve (self : CSP) : outcome (option (gmap string Z)) * CSP :=
  let '(o, s) := run_solve self in
  (match o with
   | Ok RAssignment => Ok (Some (assignment s))
   | Ok RNone => Ok None
   | Raise e => Raise e
   | OutOfFuel => OutOfFuel
   end,
   MkCSP (variables self) (domains self) (constraints self) (self_neighbors s)).

(** ** The instance at the end of main.py *)

Definition pred2 (f : Z → Z → bool) : list Z → option bool :=
  λ vs, match vs with [a; b] => Some (f a b) | _ => None end.

Definition pred3 (f : Z → Z → Z → bool) : list Z → option bool :=
  λ vs, match vs with [a; b; c] => Some (f a b c) | _ => None end.

Definition example_constraints : list constraint :=
  [ Constraint ["A"; "B"]%string (pred2 (λ a b, negb (a =? b)%Z));
    Constraint ["C"; "E"]%string (pred2 (λ c e, (c =? e)%Z));
    Constraint ["A"; "B"; "C"]%string
      (pred3 (λ a b c, negb (a =? b)%Z && negb (a =? c)%Z && negb (b =? c)%Z));
    Constraint ["B"; "D"]%string (pred2 (λ b d, negb (b =? 1)%Z || (d =? 2)%Z));
    Constraint ["B"; "C"]%string (pred2 (λ b c, negb (b =? c)%Z));
    Constraint ["D"; "E"]%string (pred2 (λ d e, negb (d =? e)%Z)) ].

Definition example_domains : gmap string (list Z) :=
  list_to_map (( λ v, (v, [1; 2; 3]%Z)) <$> ["A"; "B"; "C"; "D"; "E"]%string).

Definition csp : CSP :=
  __init__ ["A"; "B"; "C"; "D"; "E"]%string example_domains example_constraints.

(** The dict that [solve()] returns on [csp]. *)
Definition example_solution : gmap string Z :=
  list_to_map [("A", 3); ("B", 2); ("C", 1); ("D", 2); ("E", 1)]%string%Z.

(** A store met during [solve()] on [csp]: [B] is bound to 2. *)
Definition store_B2 : store := Store (neighbors csp) {["B"%string := 2%Z]} [].

(** ** Further instances *)

(** [A] has an empty domain. *)
Definition csp_empty_domain : CSP :=
  __init__ ["A"; "B"]%string
    (list_to_map [("A", []); ("B", [1])]%string%Z)
    [Constraint ["A"; "B"]%string (pred2 (λ a b, negb (a =? b)%Z))].

(** One variable and no constraint. *)
Definition csp_single : CSP :=
  __init__ ["A"]%string (list_to_map [("A", [1])]%string%Z) [].

(** Two variables and no constraint. *)
Definition free_variables : list string := ["A"; "B"]%string.

Definition free_domains : gmap string (list Z) :=
  list_to_map [("A", [2; 1]); ("B", [3])]%string%Z.


(** A constraint over [A] and a name that is not in the variable list but
    has a domain; its predicate is false on every pair. *)
Definition csp_unlisted : CSP :=
  __init__ ["A"]%string (list_to_map [("A", [1]); ("B", [1])]%string%Z)
    [Constraint ["A"; "B"]%string (pred2 (λ _ _, false))].

(** A constraint over [A] and a name that is neither listed nor has a domain. *)
Definition csp_missing_domain : CSP :=
  __init__ ["A"]%string (list_to_map [("A", [1])]%string%Z)
    [Constraint ["A"; "B"]%string (pred2 (λ _ _, false))].


(** [A] has two values and must differ from [B], a name that is not in the
    variable list and whose domain is [1]; the same instance with the
    constraint removed; the same instance with a predicate that raises. *)
Definition unlisted_domains : gmap string (list Z) :=
  list_to_map [("A", [1; 2]); ("B", [1])]%string%Z.

Definition csp_unlisted_differs : CSP :=
  __init__ ["A"]%string unlisted_domains
    [Constraint ["A"; "B"]%string (pred2 (λ a b, negb (a =? b)%Z))].

Definition csp_unlisted_removed : CSP :=
  __init__ ["A"]%string unlisted_domains [].

Definition csp_unlisted_raises : CSP :=
  __init__ ["A"]%string unlisted_domains
    [Constraint ["A"; "B"]%string (λ _, None)].

(** The store in which value ordering, on these instances, calls the checker
    for [B]: [A] is tentatively bound to 1. *)
Definition store_A1 (self : CSP) : store :=
  Store (neighbors self) {["A"%string := 1%Z]} [].

(** [A] has the smallest domain, [B] and [C] have the most neighbors. *)
Definition csp_degree_wins : CSP :=
  __init__ ["A"; "B"; "C"]%string
    (list_to_map [("A", [1]); ("B", [1; 2]); ("C", [1; 2])]%string%Z)
    [Constraint ["B"; "C"]%string (pred2 (λ b c, negb (b =? c)%Z))].

(** The store at the first call of [solve()] on [csp_degree_wins]. *)
Definition degree_wins_start : store := Store (neighbors csp_degree_wins) ∅ [].

(** ** Well-formedness of an instance

    The parts of "a finite set of variables, a domain per variable, and
    constraints over subsets of the variables, each with a predicate of the
    arity of its tuple", one by one, so that every theorem names the ones it
    needs. *)

Definition distinct_variables (self : CSP) : Prop := NoDup (variables self).

Definition domains_total (self : CSP) : Prop :=
  ∀ v, v ∈ variables self → is_Some (domains self !! v).

Definition scopes_declared (self : CSP) : Prop :=
  ∀ c v, c ∈ constraints self → v ∈ c_vars c → v ∈ variables self.

Definition scopes_nonempty (self : CSP) : Prop :=
  ∀ c, c ∈ constraints self → c_vars c ≠ [].

Definition predicates_total (self : CSP) : Prop :=
  ∀ c vals, c ∈ constraints self → length vals = length (c_vars c) →
            is_Some (condition c vals).

Definition well_formed (self : CSP) : Prop :=
  distinct_variables self ∧ domains_total self ∧ scopes_declared self ∧
  scopes_nonempty self ∧ predicates_total self.

(** ** Constraints on a (partial) assignment *)

(** Every variable of the tuple is bound in [a]. *)
Definition fully_bound (a : gmap string Z) (c : constraint) : Prop :=
  None ∉ get_values a (c_vars c).

(** The predicate applied to the values of the tuple, in tuple order. *)
Definition eval (a : gmap string Z) (c : constraint) : option bool :=
  condition c (omap id (get_values a (c_vars c))).

(** The invariant of the assignment as the specification words it: every
    constraint whose tuple is fully bound holds. *)
Definition bound_constraints_hold (self : CSP) (a : gmap string Z) : Prop :=
  ∀ c, c ∈ constraints self → fully_bound a c → eval a c = Some true.

(** The same for the constraints the checker can ever look at, those that
    range over at least one variable. *)
Definition consistent (self : CSP) (a : gmap string Z) : Prop :=
  ∀ c, c ∈ constraints self → c_vars c ≠ [] → fully_bound a c → eval a c = Some true.

(** A solution: every constraint is fully bound and holds. *)
Definition satisfies (self : CSP) (a : gmap string Z) : Prop :=
  ∀ c, c ∈ constraints self → fully_bound a c ∧ eval a c = Some true.

(** [satisfies], as a function that can be run. *)
Definition satisfiesb (self : CSP) (a : gmap string Z) : bool :=
  forallb (λ c, bool_decide (None ∉ get_values a (c_vars c)) &&
                bool_decide (eval a c = Some true))
          (constraints self).

(** What a call entered with [a0] returns when there is no constraint: the
    assignment, extended by the first value of the domain of every variable
    that [a0] does not bind. *)
Definition returns_first_values (self : CSP) (a0 : gmap string Z)
    (r : result) (s' : store) : Prop :=
  r = RAssignment ∧
  size (assignment s') = length (variables self) ∧
  a0 ⊆ assignment s' ∧
  ∀ v, v ∈ variables self → a0 !! v = None →
       ∃ x d, domains self !! v = Some (x :: d) ∧ assignment s' !! v = Some x.

(** ** The two heuristics of variable selection *)

(** The variables [_select_next_variable] chooses from. *)
Definition unassigned (self : CSP) (a : gmap string Z) : list string :=
  filter (λ v, v ∉ dom a) (variables self).

(** [len(self.domains[v])] and [len(self.neighbors[v])]. *)
Definition dsize (self : CSP) (v : string) : nat :=
  length (default [] (domains self !! v)).

Definition degree (g : gmap string (list string)) (v : string) : nat :=
  length (default [] (g !! v)).

(** The choice as the specification words it: a variable with the fewest
    remaining values, and among those one with the most neighbors. *)
Definition mrv_choice (self : CSP) (g : gmap string (list string))
    (a : gmap string Z) (v : string) : Prop :=
  v ∈ unassigned self a ∧
  (∀ u, u ∈ unassigned self a → dsize self v ≤ dsize self u) ∧
  (∀ u, u ∈ unassigned self a →
        dsize self u = dsize self v → degree g u ≤ degree g v).

(** The choice the code makes: a variable with the most neighbors, and among
    those one with the fewest remaining values. *)
Definition degree_choice (self : CSP) (g : gmap string (list string))
    (a : gmap string Z) (v : string) : Prop :=
  v ∈ unassigned self a ∧
  (∀ u, u ∈ unassigned self a → degree g u ≤ degree g v) ∧
  (∀ u, u ∈ unassigned self a →
        degree g u = degree g v → dsize self v ≤ dsize self u).

(** ** Configuration errors as the specification words them *)



(** ** What the operations leave alone, and who is to blame for an exception *)

(** [self.neighbors[v]] as every reader sees it: the list, empty when the key
    is missing. *)
Definition nview (g : gmap string (list string)) (v : string) : list string :=
  default [] (g !! v).

(** The only change a lookup makes to the defaultdict: a missing key appears,
    bound to the empty list. *)
Definition grows (g g' : gmap string (list string)) : Prop :=
  ∀ v, g' !! v = g !! v ∨ (g !! v = None ∧ g' !! v = Some []).

(** What the search commits: an assignment over listed variables that
    satisfies the constraints it binds. *)
Definition committed (self : CSP) (a : gmap string Z) : Prop :=
  consistent self a ∧ ∀ v, is_Some (a !! v) → v ∈ variables self.

(** From store [s] to store [s']: the defaultdict only grew, and every
    assignment noted in the history since then is a committed one. *)
Definition evolves (self : CSP) (s s' : store) : Prop :=
  grows (self_neighbors s) (self_neighbors s') ∧
  ∃ l, entered s' = entered s ++ l ∧ Forall (committed self) l.

(** The neighbor lists of the store are those of the object. *)
Definition view_ok (self : CSP) (s : store) : Prop :=
  ∀ v, nview (self_neighbors s) v = nview (neighbors self) v.

(** The defect of the instance behind each exception. *)
Definition blame (self : CSP) (e : exn) : Prop :=
  match e with
  | KeyError k =>
      domains self !! k = None ∧
      (k ∈ variables self ∨ ∃ v, k ∈ nview (neighbors self) v)
  | ValueError =>
      ¬ NoDup (variables self) ∧
      ∀ v, v ∈ variables self → ∃ d x, domains self !! v = Some d ∧ x ∈ d
  | CallRaised =>
      ∃ c vals, c ∈ constraints self ∧ length vals = length (c_vars c) ∧
                condition c vals = None
  end.

(** A specification of a computation started in [s]: it does not run out of
    fuel, the store [evolves], a returned value satisfies [Q] and a raised
    exception satisfies [E]. *)
Definition spec {A} (self : CSP) (s : store) (m : M A)
    (Q : A → store → Prop) (E : exn → Prop) : Prop :=
  match m s with
  | (Ok a, s') => evolves self s s' ∧ Q a s'
  | (Raise e, s') => evolves self s s' ∧ E e
  | (OutOfFuel, _) => False
  end.

(** The exceptional postcondition of a computation that does not raise. *)
Definition never : exn → Prop := λ _, False.

(** The assignments the search commits: consistent, over declared variables,
    with values taken from the domains. *)
Definition good (self : CSP) (a : gmap string Z) : Prop :=
  consistent self a ∧
  (∀ v, is_Some (a !! v) → v ∈ variables self) ∧
  (∀ v x, a !! v = Some x → ∃ d, domains self !! v = Some d ∧ x ∈ d).

(** What a call of [_recursive_backtracking] entered with assignment [a0]
    returns: [None] with the assignment restored, or the assignment itself,
    extended to a complete one. *)
Definition returns (self : CSP) (a0 : gmap string Z) (r : result) (s' : store) : Prop :=
  match r with
  | RNone => assignment s' = a0
  | RAssignment =>
      a0 ⊆ assignment s' ∧ good self (assignment s') ∧
      size (assignment s') = length (variables self)
  end.

(** ** Further notions: the graph, solutions, runs that agree *)

(** What one constraint adds to [neighbors[v]]: for every occurrence of [v]
    in its tuple, the names of the tuple that differ from [v], in tuple
    order. *)
Definition shared (v : string) (c : constraint) : list string :=
  mjoin ((λ var, if decide (var = v)
                  then filter (λ w, w ≠ var) (c_vars c) else [])
            <$> c_vars c).

(** An assignment that gives every listed variable a value of its domain. *)
Definition candidate (self : CSP) (T : gmap string Z) : Prop :=
  ∀ v, v ∈ variables self → ∃ d x, domains self !! v = Some d ∧ x ∈ d ∧ T !! v = Some x.

(** The predicate of some constraint returns false on [T]. *)
Definition violates (self : CSP) (T : gmap string Z) : Prop :=
  ∃ c, c ∈ constraints self ∧ fully_bound T c ∧ eval T c = Some false.

(** Every candidate that extends [a0] violates a constraint. *)
Definition no_solution_extends (self : CSP) (a0 : gmap string Z) : Prop :=
  ∀ T, a0 ⊆ T → candidate self T → violates self T.

(** A call that returned [None] has exhausted the candidates. *)
Definition exhaustive (self : CSP) (a0 : gmap string Z) (r : result) (s' : store) : Prop :=
  returns self a0 r s' ∧ (r = RNone → no_solution_extends self a0).

(** Two stores that every operation reads alike: the same assignment and the
    same neighbor lists, whatever keys the defaultdicts hold. *)
Definition same_view (s1 s2 : store) : Prop :=
  assignment s1 = assignment s2 ∧
  ∀ v, nview (self_neighbors s1) v = nview (self_neighbors s2) v.

(** Two computations that, from stores read alike, give the same outcome and
    leave stores read alike. *)
Definition agree {A} (m1 m2 : M A) : Prop :=
  ∀ s1 s2, same_view s1 s2 →
           (m1 s1).1 = (m2 s2).1 ∧ same_view (m1 s1).2 (m2 s2).2.

(** [not ok] of a call of the checker, as a number to sum. *)
Definition is_rejected (o : outcome bool) : bool :=
  match o with Ok false => true | _ => false end.

(** The number of values of [neighbor] that the checker rejects on [a]. *)
Definition rejected (self : CSP) (a : gmap string Z) (neighbor : string) : nat :=
  length (filter (λ val, is_rejected
                           (check_constraints neighbor (constraints self)
                              (<[neighbor := val]> a)))
                 (default [] (domains self !! neighbor))).

(** The projected conflict count of [value] for [variable]: over the
    neighbor list [nbs] of the variable, the rejected values of every
    neighbor that the assignment, with [variable] bound to [value], does not
    bind. *)
Definition conflicts (self : CSP) (nbs : list string) (a : gmap string Z)
    (variable : string) (value : Z) : nat :=
  sum_list ((λ neighbor,
               if decide (neighbor ∈ dom (<[variable := value]> a)) then 0
               else rejected self (<[variable := value]> a) neighbor) <$> nbs).

(** A constraint that is false on every value of [A], followed by one whose
    predicate raises. *)
Definition always_false : constraint := Constraint ["A"]%string (λ _, Some false).

Definition always_raises : constraint := Constraint ["A"]%string (λ _, None).

Definition csp_stops : CSP :=
  __init__ ["A"]%string (list_to_map [("A", [1])]%string%Z)
    [always_false; always_raises].

(** A variable list that names [A] twice. *)
Definition csp_duplicate : CSP :=
  __init__ ["A"; "A"]%string (list_to_map [("A", [1])]%string%Z) [].

(** [A] and [B] must differ and have one value, the same. *)
Definition csp_unsat : CSP :=
  __init__ ["A"; "B"]%string (list_to_map [("A", [1]); ("B", [1])]%string%Z)
    [Constraint ["A"; "B"]%string (pred2 (λ a b, negb (a =? b)%Z))].

(** ** The consistency checker *)

Section Checker.
Context (self : CSP).

Lemma unbound_in_values (a : gmap string Z) (l : list string) :
  None ∈ get_values a l ↔ ∃ v, v ∈ l ∧ a !! v = None.
Proof.
  unfold get_values. rewrite list_elem_of_fmap. split.
  - intros (v & Hv & Hin). eauto.
  - intros (v & Hin & Hv). eauto.
Qed.

Lemma bound_values_length (a : gmap string Z) (l : list string) :
  None ∉ get_values a l → length (omap id (get_values a l)) = length l.
Proof.
  induction l as [|v l IH]; simpl; [done|].
  intros Hno. destruct (a !! v) as [x|] eqn:Hv; simpl.
  - f_equal. apply IH. intros Hin. apply Hno. by right.
  - exfalso. apply Hno. by left.
Qed.

Lemma get_values_insert_fresh (a : gmap string Z) k x (l : list string) :
  k ∉ l → get_values (<[k := x]> a) l = get_values a l.
Proof.
  intros Hk. unfold get_values. apply list_fmap_ext.
  intros i v Hi. apply lookup_insert_ne. intros ->.
  apply Hk. eapply list_elem_of_lookup_2; eauto.
Qed.

Lemma check_constraints_has_fuel variable cs a :
  check_constraints variable cs a ≠ OutOfFuel.
Proof.
  induction cs as [|c cs IH]; simpl; [done|].
  repeat case_bool_decide; try done.
  destruct (condition c _) as [[]|]; done.
Qed.

Lemma check_constraints_true variable cs a :
  check_constraints variable cs a = Ok true →
  ∀ c, c ∈ cs → variable ∈ c_vars c → fully_bound a c → eval a c = Some true.
Proof.
  induction cs as [|c0 cs IH]; simpl; intros Hrun c Hc Hv Hb.
  - by apply elem_of_nil in Hc.
  - apply elem_of_cons in Hc as [->|Hc].
    + rewrite bool_decide_eq_true_2 in Hrun by done.
      rewrite bool_decide_eq_false_2 in Hrun by done.
      unfold eval. destruct (condition c0 _) as [[]|]; done.
    + apply IH; try done.
      repeat case_bool_decide; try done.
      destruct (condition c0 _) as [[]|]; done.
Qed.

Lemma check_constraints_false variable cs a :
  check_constraints variable cs a = Ok false →
  ∃ c, c ∈ cs ∧ variable ∈ c_vars c ∧ fully_bound a c ∧ eval a c = Some false.
Proof.
  induction cs as [|c0 cs IH]; simpl; intros Hrun; [done|].
  assert (check_constraints variable cs a = Ok false →
          ∃ c, c ∈ c0 :: cs ∧ variable ∈ c_vars c ∧ fully_bound a c
               ∧ eval a c = Some false) as Hrest.
  { intros (c & ? & ?)%IH. exists c. split; [by right|done]. }
  repeat case_bool_decide; try by apply Hrest.
  destruct (condition c0 _) as [[]|] eqn:Hcond; try done; [by apply Hrest|].
  exists c0. split; [by left|done].
Qed.

Lemma check_constraints_raise variable cs a e :
  check_constraints variable cs a = Raise e →
  e = CallRaised ∧
  ∃ c, c ∈ cs ∧ variable ∈ c_vars c ∧ fully_bound a c ∧ eval a c = None.
Proof.
  induction cs as [|c0 cs IH]; simpl; intros Hrun; [done|].
  assert (check_constraints variable cs a = Raise e →
          e = CallRaised ∧
          ∃ c, c ∈ c0 :: cs ∧ variable ∈ c_vars c ∧ fully_bound a c
               ∧ eval a c = None) as Hrest.
  { intros [-> (c & ? & ?)]%IH. split; [done|]. exists c. split; [by right|done]. }
  repeat case_bool_decide; try by apply Hrest.
  destruct (condition c0 _) as [[]|] eqn:Hcond; try done; [by apply Hrest|].
  injection Hrun as <-. split; [done|]. exists c0. split; [by left|done].
Qed.

(** With predicates that do not raise, the loop returns, and it returns
    [False] exactly when a relevant, fully bound constraint is violated. *)
Lemma check_constraints_total variable cs a :
  (∀ c vals, c ∈ cs → length vals = length (c_vars c) → is_Some (condition c vals)) →
  ∃ b, check_constraints variable cs a = Ok b ∧
       (b = false ↔
        ∃ c, c ∈ cs ∧ variable ∈ c_vars c ∧ fully_bound a c ∧ eval a c = Some false).
Proof.
  intros Htot.
  destruct (check_constraints variable cs a) as [b|e|] eqn:Hrun.
  - exists b. split; [done|]. destruct b.
    + split; [done|]. intros (c & Hc & Hv & Hb & Hf).
      pose proof (check_constraints_true _ _ _ Hrun c Hc Hv Hb). congruence.
    + split; [|done]. intros _. by apply check_constraints_false.
  - apply check_constraints_raise in Hrun as [_ (c & Hc & _ & Hb & Hnone)].
    destruct (Htot c (omap id (get_values a (c_vars c))) Hc) as [r Hr].
    { by apply bound_values_length. }
    unfold eval in Hnone. congruence.
  - by apply check_constraints_has_fuel in Hrun.
Qed.

(** What a call does to the store, whatever the assignment was: the
    tentative binding is set, the loop runs on it, and the key is deleted,
    not restored. *)
Lemma is_assignment_valid_run variable value s :
  _is_assignment_valid self variable value s =
  match check_constraints variable (constraints self)
          (<[variable := value]> (assignment s)) with
  | Ok b => (Ok b, Store (self_neighbors s) (delete variable (assignment s)) (entered s))
  | Raise e => (Raise e,
                Store (self_neighbors s) (<[variable := value]> (assignment s)) (entered s))
  | OutOfFuel => (OutOfFuel,
                Store (self_neighbors s) (<[variable := value]> (assignment s)) (entered s))
  end.
Proof.
  unfold _is_assignment_valid, bind, setitem, read, delitem, ret; simpl.
  destruct (check_constraints _ _ _); simpl; try done.
  rewrite lookup_insert_eq. by rewrite delete_insert_eq.
Qed.

Lemma is_assignment_valid_unbound variable value s :
  assignment s !! variable = None →
  _is_assignment_valid self variable value s =
  match check_constraints variable (constraints self)
          (<[variable := value]> (assignment s)) with
  | Ok b => (Ok b, s)
  | Raise e => (Raise e,
                Store (self_neighbors s) (<[variable := value]> (assignment s)) (entered s))
  | OutOfFuel => (OutOfFuel,
                Store (self_neighbors s) (<[variable := value]> (assignment s)) (entered s))
  end.
Proof.
  intros Hfree. rewrite is_assignment_valid_run.
  destruct (check_constraints _ _ _); try done.
  rewrite delete_id by done. by destruct s.
Qed.

(** A call on constraints that all still have an unbound variable returns
    true, whatever the predicates are: none of them is called. *)
Lemma is_assignment_valid_skips_unbound variable value s :
  (∀ c, c ∈ constraints self → variable ∈ c_vars c →
        ¬ fully_bound (<[variable := value]> (assignment s)) c) →
  (_is_assignment_valid self variable value s).1 = Ok true.
Proof.
  intros Hskip. rewrite is_assignment_valid_run.
  assert (check_constraints variable (constraints self)
            (<[variable := value]> (assignment s)) = Ok true) as ->; [|done].
  induction (constraints self) as [|c cs IH]; simpl; [done|].
  assert (check_constraints variable cs (<[variable := value]> (assignment s))
          = Ok true) as Hrest.
  { apply IH. intros c' Hc'. apply Hskip. by right. }
  case_bool_decide as Hin; [|done].
  rewrite bool_decide_eq_true_2; [done|].
  pose proof (Hskip c (list_elem_of_here _ _) Hin) as Hno. unfold fully_bound in Hno.
  by destruct (decide (None ∈ get_values (<[variable := value]> (assignment s))
                         (c_vars c))).
Qed.

End Checker.

(** ** Sorting by key and taking a maximum *)

Section Sorting.
Context {A : Type}.
Implicit Types (x : nat * A) (l : list (nat * A)).

Lemma insert_by_key_perm x l : insert_by_key x l ≡ₚ x :: l.
Proof.
  induction l as [|y l IH]; simpl; [done|].
  destruct (y.1 <? x.1)%nat; [|done].
  rewrite IH. apply Permutation_swap.
Qed.

Lemma sort_by_key_perm l : foldr insert_by_key [] l ≡ₚ l.
Proof.
  induction l as [|x l IH]; simpl; [done|].
  rewrite insert_by_key_perm. by rewrite IH.
Qed.

Lemma sorted_by_key_zip_perm (keys : list nat) (xs : list A) :
  length keys = length xs → sorted_by_key (zip keys xs) ≡ₚ xs.
Proof.
  intros Hlen. unfold sorted_by_key. rewrite sort_by_key_perm.
  by rewrite snd_zip by lia.
Qed.

Lemma max_from_elem x l : max_from x l = x.2 ∨ max_from x l ∈ l.*2.
Proof.
  revert x. induction l as [|y l IH]; intros x; simpl; [by left|].
  destruct (x.1 <? y.1)%nat.
  - destruct (IH y) as [->|?]; right; [by left|by right].
  - destruct (IH x) as [->|?]; [by left|right; by right].
Qed.

Lemma max_by_key_elem l v : max_by_key l = Some v → v ∈ l.*2.
Proof.
  destruct l as [|x l]; simpl; [done|]. intros [= <-].
  destruct (max_from_elem x l) as [->|?]; [by left|by right].
Qed.

Lemma max_by_key_None l : max_by_key l = None → l = [].
Proof. by destruct l. Qed.

End Sorting.

(** ** Rules for specifications *)

Section Rules.
Context (self : CSP).

Lemma grows_refl g : grows g g.
Proof. intros v. by left. Qed.

Lemma grows_trans g1 g2 g3 : grows g1 g2 → grows g2 g3 → grows g1 g3.
Proof.
  intros H12 H23 v. destruct (H12 v) as [E12|[E1 E2]], (H23 v) as [E23|[E2' E3]].
  - left. congruence.
  - right. split; congruence.
  - right. split; congruence.
  - congruence.
Qed.

Lemma grows_nview g g' v : grows g g' → nview g' v = nview g v.
Proof. intros H. unfold nview. destruct (H v) as [->|[-> ->]]; done. Qed.

Lemma evolves_refl s : evolves self s s.
Proof. split; [apply grows_refl|]. exists []. by rewrite app_nil_r. Qed.

Lemma evolves_trans s1 s2 s3 :
  evolves self s1 s2 → evolves self s2 s3 → evolves self s1 s3.
Proof.
  intros [Hg (l & Hl & Hc)] [Hg' (l' & Hl' & Hc')]. split.
  - by eapply grows_trans.
  - exists (l ++ l'). split; [|by apply Forall_app].
    by rewrite Hl', Hl, app_assoc.
Qed.

(** Only the assignment changed. *)
Lemma evolves_assignment nb a a' ent :
  evolves self (Store nb a ent) (Store nb a' ent).
Proof. split; [apply grows_refl|]. exists []. by rewrite app_nil_r. Qed.

Lemma view_ok_evolves s s' : view_ok self s → evolves self s s' → view_ok self s'.
Proof. intros Hv [Hg _] v. rewrite <- Hv. by apply grows_nview. Qed.

Lemma spec_ret {A} s (a : A) (Q : A → store → Prop) E :
  Q a s → spec self s (ret a) Q E.
Proof. intros HQ. split; [apply evolves_refl|done]. Qed.

Lemma spec_raise {A} s e (Q : A → store → Prop) (E : exn → Prop) :
  E e → spec self s (raise e) Q E.
Proof. intros HE. split; [apply evolves_refl|done]. Qed.

Lemma spec_bind {A B} s (m : M A) (k : A → M B) (Q : B → store → Prop) E :
  spec self s m (λ a s', spec self s' (k a) Q E) E → spec self s (bind m k) Q E.
Proof.
  unfold spec, bind. destruct (m s) as [[a|e|] s']; [|done..].
  intros [Hev Hk]. destruct (k a s') as [[b|e|] s'']; [| |done];
    destruct Hk as [Hev' HQ]; (split; [by eapply evolves_trans|done]).
Qed.

Lemma spec_conseq {A} s (m : M A) (Q Q' : A → store → Prop) (E E' : exn → Prop) :
  spec self s m Q E →
  (∀ a s', evolves self s s' → Q a s' → Q' a s') →
  (∀ e, E e → E' e) →
  spec self s m Q' E'.
Proof.
  unfold spec. destruct (m s) as [[a|e|] s']; [| |done];
    intros [Hev H] HQ HE; (split; [done|]); auto.
Qed.

Lemma spec_post {A} s (m : M A) (Q Q' : A → store → Prop) (E : exn → Prop) :
  spec self s m Q E →
  (∀ a s', evolves self s s' → Q a s' → Q' a s') →
  spec self s m Q' E.
Proof. intros H HQ. eapply spec_conseq; [exact H|exact HQ|auto]. Qed.

Lemma spec_get_assignment s (Q : gmap string Z → store → Prop) E :
  Q (assignment s) s → spec self s get_assignment Q E.
Proof. intros HQ. split; [apply evolves_refl|done]. Qed.

Lemma spec_setitem s k v (Q : unit → store → Prop) E :
  Q tt (Store (self_neighbors s) (<[k := v]> (assignment s)) (entered s)) →
  spec self s (setitem k v) Q E.
Proof. intros HQ. destruct s. split; [apply evolves_assignment|done]. Qed.

Lemma spec_delitem s k (Q : unit → store → Prop) E :
  is_Some (assignment s !! k) →
  Q tt (Store (self_neighbors s) (delete k (assignment s)) (entered s)) →
  spec self s (delitem k) Q E.
Proof.
  intros [x Hx] HQ. unfold spec, delitem. rewrite Hx.
  destruct s. split; [apply evolves_assignment|done].
Qed.

Lemma spec_neighbors_getitem s v (Q : list string → store → Prop) E :
  (∀ nb, grows (self_neighbors s) nb →
         Q (nview (self_neighbors s) v) (Store nb (assignment s) (entered s))) →
  spec self s (neighbors_getitem v) Q E.
Proof.
  intros HQ. unfold spec, neighbors_getitem, nview in *.
  destruct (self_neighbors s !! v) as [l|] eqn:Hl.
  - split; [apply evolves_refl|]. specialize (HQ _ (grows_refl _)).
    by destruct s.
  - assert (grows (self_neighbors s) (<[v := []]> (self_neighbors s))) as Hg.
    { intros w. destruct (decide (v = w)) as [<-|Hne].
      - right. by rewrite lookup_insert_eq.
      - left. by rewrite lookup_insert_ne. }
    split.
    + split; [done|]. exists []. by rewrite app_nil_r.
    + by specialize (HQ _ Hg).
Qed.

Lemma spec_domains_getitem s v (Q : list Z → store → Prop) (E : exn → Prop) :
  (∀ d, domains self !! v = Some d → Q d s) →
  (domains self !! v = None → E (KeyError v)) →
  spec self s (domains_getitem self v) Q E.
Proof.
  intros HQ HE. unfold domains_getitem.
  destruct (domains self !! v) as [d|]; [apply spec_ret|apply spec_raise]; auto.
Qed.

Lemma spec_log_entry s (Q : unit → store → Prop) E :
  committed self (assignment s) →
  Q tt (Store (self_neighbors s) (assignment s) (entered s ++ [assignment s])) →
  spec self s log_entry Q E.
Proof.
  intros Hc HQ. split; [|done]. split; [apply grows_refl|].
  exists [assignment s]. split; [done|]. by apply Forall_singleton.
Qed.

(** A comprehension with effects: [I] holds of the store between the calls,
    [R] relates each element to what the body returned for it. *)
Lemma spec_map_m {A B} (f : A → M B) (I : store → Prop) (R : A → B → Prop) E l s :
  (∀ x s', x ∈ l → I s' → spec self s' (f x) (λ y s'', I s'' ∧ R x y) E) →
  I s →
  spec self s (map_m f l) (λ ys s', I s' ∧ Forall2 R l ys) E.
Proof.
  revert s. induction l as [|x l IH]; intros s Hf HI; simpl.
  - apply spec_ret. by split.
  - apply spec_bind. eapply spec_conseq; [apply Hf; [by left|done]| |done].
    intros y s' _ [HI' HR]. simpl.
    apply spec_bind. eapply spec_conseq; [apply IH; [|done]| |done].
    + intros x' s'' Hx'. apply Hf. by right.
    + intros ys s'' _ [HI'' HRs]. simpl. apply spec_ret. split; [done|].
      by constructor.
Qed.

(** A loop with an accumulator: [I] holds of the accumulator and the store
    between the iterations. *)
Lemma spec_fold_m {A B} (f : B → A → M B) (I : B → store → Prop) E l b s :
  (∀ b' x s', x ∈ l → I b' s' → spec self s' (f b' x) I E) →
  I b s →
  spec self s (fold_m f b l) I E.
Proof.
  revert b s. induction l as [|x l IH]; intros b s Hf HI; simpl.
  - by apply spec_ret.
  - apply spec_bind. eapply spec_conseq; [apply Hf; [by left|done]| |done].
    intros b' s' _ HI'. simpl. apply IH; [|done].
    intros b'' x' s'' Hx'. apply Hf. by right.
Qed.

End Rules.

(** ** The operations of the solver, one specification each *)

Section Solver.
Context (self : CSP).

Lemma check_raise_blame variable a e :
  check_constraints variable (constraints self) a = Raise e → blame self e.
Proof.
  intros [-> (c & Hc & _ & Hb & Hnone)]%check_constraints_raise.
  exists c, (omap id (get_values a (c_vars c))).
  split; [done|]. split; [by apply bound_values_length|done].
Qed.

(** On a variable that is not bound the checker leaves the store as it was. *)
Lemma spec_is_assignment_valid s variable value :
  assignment s !! variable = None →
  spec self s (_is_assignment_valid self variable value)
    (λ ok s', s' = s ∧
       check_constraints variable (constraints self)
         (<[variable := value]> (assignment s)) = Ok ok)
    (blame self).
Proof.
  intros Hfree. unfold spec. rewrite is_assignment_valid_unbound by done.
  destruct (check_constraints _ _ _) as [ok|e|] eqn:Hrun.
  - split; [apply evolves_refl|done].
  - split; [destruct s; apply evolves_assignment|by eapply check_raise_blame].
  - by apply check_constraints_has_fuel in Hrun.
Qed.

Lemma spec_count_conflicts s variable value :
  view_ok self s →
  assignment s !! variable = None →
  spec self s (count_conflicts self variable value)
    (λ _ s', assignment s' = assignment s)
    (blame self).
Proof.
  intros Hview Hfree. unfold count_conflicts.
  apply spec_bind, spec_setitem. apply spec_bind, spec_neighbors_getitem.
  intros nb Hnb. simpl. apply spec_bind.
  set (a1 := <[variable := value]> (assignment s)).
  eapply spec_post;
    [apply (spec_fold_m self _ (λ _ s', assignment s' = a1)); [|done] |].
  - intros n neighbor s' Hin Ha. apply spec_bind, spec_get_assignment.
    case_bool_decide as Hbound; [by apply spec_ret|].
    apply not_elem_of_dom in Hbound.
    apply spec_bind, spec_domains_getitem.
    + intros d Hd. apply spec_bind.
      eapply spec_post;
        [apply (spec_map_m self _ (λ s'', assignment s'' = a1) (λ _ _, True)); [|done]
        |].
      * intros val s'' _ Ha''.
        eapply spec_post; [apply spec_is_assignment_valid; congruence|].
        simpl. intros ok s3 _ [-> _]. done.
      * simpl. intros oks s'' _ [Ha'' _]. by apply spec_ret.
    + intros Hnone. split; [done|]. right. exists variable.
      rewrite <- Hview. done.
  - simpl. intros n s' _ Ha. apply spec_bind, spec_delitem.
    + rewrite Ha. unfold a1. rewrite lookup_insert_eq. eauto.
    + apply spec_ret. simpl. rewrite Ha. unfold a1.
      rewrite delete_insert_eq. by apply delete_id.
Qed.

Lemma spec_order_values s variable :
  view_ok self s →
  assignment s !! variable = None →
  variable ∈ variables self →
  spec self s (_order_values_by_least_conflicts self variable)
    (λ values s', assignment s' = assignment s ∧ view_ok self s' ∧
       ∃ d, domains self !! variable = Some d ∧ values ≡ₚ d)
    (blame self).
Proof.
  intros Hview Hfree Hvar. unfold _order_values_by_least_conflicts.
  apply spec_bind, spec_domains_getitem; [|intros Hnone; split; [done|by left]].
  intros d Hd. apply spec_bind.
  eapply spec_post;
    [apply (spec_map_m self _
              (λ s', assignment s' = assignment s ∧ view_ok self s') (λ _ _, True));
     [|done] |].
  - intros value s' _ [Ha Hv'].
    eapply spec_post; [apply spec_count_conflicts; [done|congruence]|].
    simpl. intros n s'' Hev Ha''. split; [|done].
    split; [congruence|by eapply view_ok_evolves].
  - simpl. intros keys s' _ [[Ha Hv'] Hkeys]. apply spec_ret.
    split; [done|]. split; [done|]. exists d. split; [done|].
    apply sorted_by_key_zip_perm. symmetry. by eapply Forall2_length.
Qed.

Lemma spec_select_next_variable s :
  spec self s (_select_next_variable self)
    (λ v s', assignment s' = assignment s ∧
       v ∈ variables self ∧ assignment s !! v = None)
    (λ e, (e = ValueError ∧ unassigned self (assignment s) = []) ∨
          (∃ k, e = KeyError k ∧ k ∈ variables self ∧ domains self !! k = None)).
Proof.
  unfold _select_next_variable. apply spec_bind, spec_get_assignment.
  fold (unassigned self (assignment s)). apply spec_bind.
  eapply spec_post;
    [apply (spec_map_m self _ (λ s', s' = s) (λ _ _, True)); [|done] |].
  - intros v s' Hv ->. apply spec_bind, spec_domains_getitem.
    + intros d _. by apply spec_ret.
    + intros Hnone. right. exists v. split; [done|]. split; [|done].
      by apply list_elem_of_filter in Hv as [_ ?].
  - simpl. intros sizes s' _ [-> Hsizes%Forall2_length].
    set (min_domain_vars := sorted_by_key (zip sizes (unassigned self (assignment s)))).
    assert (min_domain_vars ≡ₚ unassigned self (assignment s)) as Hperm.
    { by apply sorted_by_key_zip_perm. }
    apply spec_bind.
    eapply spec_post;
      [apply (spec_map_m self _ (λ s', assignment s' = assignment s) (λ _ _, True));
       [|done] |].
    + intros v s' _ Ha. apply spec_bind, spec_neighbors_getitem.
      intros nb _. by apply spec_ret.
    + simpl. intros degrees s' _ [Ha Hdeg%Forall2_length].
      destruct (max_by_key _) as [v|] eqn:Hmax.
      * apply spec_ret. split; [done|].
        apply max_by_key_elem in Hmax. rewrite snd_zip in Hmax by lia.
        rewrite Hperm in Hmax. apply list_elem_of_filter in Hmax as [Hfree Hin].
        split; [done|]. by apply not_elem_of_dom.
      * apply spec_raise. left. split; [done|].
        apply max_by_key_None in Hmax.
        apply Permutation_nil_r. rewrite <- Hperm.
        destruct min_domain_vars, degrees; simpl in *; try done.
Qed.

End Solver.

(** ** The search *)

Section Search.
Context (self : CSP).

Lemma filter_length_lt {A} (P P' : A → Prop) `{!∀ x, Decision (P x)}
    `{!∀ x, Decision (P' x)} (l : list A) (y : A) :
  (∀ x, P' x → P x) → y ∈ l → P y → ¬ P' y →
  length (filter P' l) < length (filter P l).
Proof.
  intros Himp Hin HP HP'.
  assert (∀ l', length (filter P' l') ≤ length (filter P l')) as Hle.
  { induction l' as [|x l' IH]; [done|].
    rewrite !filter_cons. repeat case_decide; simpl; try lia.
    exfalso. auto. }
  induction l as [|x l IH]; [by apply elem_of_nil in Hin|].
  rewrite !filter_cons. apply elem_of_cons in Hin as [<-|Hin].
  - destruct (decide (P y)); [|done]. destruct (decide (P' y)); [done|].
    simpl. specialize (Hle l). lia.
  - specialize (IH Hin). repeat case_decide; simpl; try lia.
    exfalso. auto.
Qed.

Lemma unassigned_shrinks a variable value :
  variable ∈ variables self → a !! variable = None →
  length (unassigned self (<[variable := value]> a)) < length (unassigned self a).
Proof.
  intros Hin Hfree. unfold unassigned.
  apply (filter_length_lt _ _ _ variable); [|done| |].
  - intros x. rewrite dom_insert_L. set_solver.
  - by apply not_elem_of_dom.
  - rewrite dom_insert_L. set_solver.
Qed.

Lemma unassigned_nil a :
  unassigned self a = [] → ∀ v, v ∈ variables self → v ∈ dom a.
Proof.
  intros Hnil v Hv. destruct (decide (v ∈ dom a)) as [|Hno]; [done|].
  assert (v ∈ unassigned self a) as Hin by (by apply list_elem_of_filter).
  rewrite Hnil in Hin. by apply elem_of_nil in Hin.
Qed.

Lemma size_list_to_set_le (l : list string) :
  size (list_to_set l : gset string) ≤ length l.
Proof.
  induction l as [|x l IH].
  - by rewrite list_to_set_nil, size_empty.
  - rewrite list_to_set_cons, size_union_alt, size_singleton. cbn [length].
    assert (size (list_to_set l ∖ {[x]} : gset string)
            ≤ size (list_to_set l : gset string)) as Hle.
    { apply subseteq_size, subseteq_difference_l. done. }
    lia.
Qed.

(** An assignment over the declared variables that binds them all has as
    many entries as the list of variables has names, unless a name is listed
    twice. *)
Lemma all_bound_size (a : gmap string Z) :
  (∀ v, is_Some (a !! v) → v ∈ variables self) →
  (∀ v, v ∈ variables self → v ∈ dom a) →
  NoDup (variables self) →
  size a = length (variables self).
Proof.
  intros Hdecl Hall Hnd.
  assert (dom a = list_to_set (variables self)) as Hdom.
  { apply set_eq. intros v. rewrite elem_of_list_to_set, elem_of_dom. split; [auto|].
    intros Hv. apply elem_of_dom. auto. }
  rewrite <- size_dom, Hdom. by apply size_list_to_set.
Qed.

(** Conversely, an assignment over the declared variables with as many
    entries as the list has names binds every variable. *)
Lemma complete_binds_all (a : gmap string Z) :
  (∀ v, is_Some (a !! v) → v ∈ variables self) →
  size a = length (variables self) →
  ∀ v, v ∈ variables self → is_Some (a !! v).
Proof.
  intros Hdecl Hsize.
  assert (dom a ⊆ list_to_set (variables self)) as Hsub.
  { intros v Hv. apply elem_of_list_to_set. apply Hdecl. by apply elem_of_dom. }
  assert (size (list_to_set (variables self) : gset string) ≤ size (dom a)) as Hle.
  { rewrite size_dom, Hsize. apply size_list_to_set_le. }
  intros v Hv. apply elem_of_dom.
  pose proof (set_subseteq_size_eq _ _ Hsub Hle) as Heq.
  rewrite Heq. by apply elem_of_list_to_set.
Qed.

Lemma good_insert a variable value d :
  good self a → a !! variable = None → variable ∈ variables self →
  domains self !! variable = Some d → value ∈ d →
  check_constraints variable (constraints self) (<[variable := value]> a) = Ok true →
  good self (<[variable := value]> a).
Proof.
  intros (Hcons & Hdecl & Hdom) Hfree Hvar Hd Hval Hcheck. split; [|split].
  - intros c Hc Hne Hb. destruct (decide (variable ∈ c_vars c)) as [Hin|Hout].
    + by eapply check_constraints_true.
    + unfold fully_bound, eval in *.
      rewrite get_values_insert_fresh in * by done. by apply Hcons.
  - intros v [x Hx]. destruct (decide (variable = v)) as [<-|Hne]; [done|].
    rewrite lookup_insert_ne in Hx by done. apply Hdecl. eauto.
  - intros v x Hx. destruct (decide (variable = v)) as [<-|Hne].
    + rewrite lookup_insert_eq in Hx. injection Hx as <-. eauto.
    + rewrite lookup_insert_ne in Hx by done. eauto.
Qed.

Lemma spec_truthy s r (Q : bool → store → Prop) E :
  Q (match r with
     | RAssignment => negb (bool_decide (assignment s = ∅))
     | RNone => false
     end) s →
  spec self s (truthy r) Q E.
Proof.
  intros HQ. destruct r; simpl.
  - apply spec_bind, spec_get_assignment. by apply spec_ret.
  - by apply spec_ret.
Qed.

Lemma spec_try_values (rec : M result) variable d a0 :
  good self a0 → a0 !! variable = None → variable ∈ variables self →
  domains self !! variable = Some d →
  (∀ s1 value, view_ok self s1 → good self (<[variable := value]> a0) →
               assignment s1 = <[variable := value]> a0 →
               spec self s1 rec (returns self (<[variable := value]> a0)) (blame self)) →
  ∀ values s, view_ok self s → assignment s = a0 → (∀ x, x ∈ values → x ∈ d) →
  spec self s (try_values self rec variable values) (returns self a0) (blame self).
Proof.
  intros Hgood Hfree Hvar Hd Hrec.
  induction values as [|value rest IH]; intros s Hview Ha Hsub; simpl.
  { by apply spec_ret. }
  assert (∀ x, x ∈ rest → x ∈ d) as Hsub' by (intros x Hx; apply Hsub; by right).
  apply spec_bind.
  eapply spec_post; [apply spec_is_assignment_valid; congruence|].
  simpl. intros ok s' _ [-> Hcheck]. rewrite Ha in Hcheck.
  destruct ok; [|by apply IH].
  assert (good self (<[variable := value]> a0)) as Hgood'.
  { eapply good_insert; eauto. apply Hsub. by left. }
  apply spec_bind, spec_setitem. apply spec_bind.
  eapply spec_post; [apply (Hrec _ value); [done|done|simpl; congruence]|].
  simpl. intros r s1 Hev Hret. destruct r; simpl in Hret.
  - destruct Hret as (Hsubmap & Hgood1 & Hsize).
    apply spec_bind, spec_truthy.
    rewrite bool_decide_eq_false_2.
    + simpl. apply spec_ret. simpl. split; [|done].
      etrans; [|exact Hsubmap]. by apply insert_subseteq.
    + intros Hempty. rewrite Hempty in Hsubmap.
      pose proof (lookup_weaken _ _ variable value
                    (lookup_insert_eq a0 variable value) Hsubmap) as Hl.
      by rewrite lookup_empty in Hl.
  - apply spec_bind, spec_truthy. apply spec_bind, spec_delitem.
    { rewrite Hret, lookup_insert_eq. eauto. }
    apply IH; [|simpl|done].
    + intros v. simpl. destruct Hev as [Hg _]. simpl in Hg.
      rewrite (grows_nview _ _ v Hg). apply Hview.
    + rewrite Hret, delete_insert_eq. by apply delete_id.
Qed.

(** The body of a call, given that the recursive calls behave: it returns
    or raises for a reason that lies in the instance; it returns [None] with
    the assignment as it found it, or a complete good assignment. *)
Lemma spec_backtrack (rec : M result) s :
  view_ok self s → good self (assignment s) →
  (∀ s1, view_ok self s1 → good self (assignment s1) →
         length (unassigned self (assignment s1))
           < length (unassigned self (assignment s)) →
         spec self s1 rec (returns self (assignment s1)) (blame self)) →
  spec self s (backtrack self rec) (returns self (assignment s)) (blame self).
Proof.
  intros Hview Hgood Hrec. unfold backtrack.
  apply spec_bind, spec_get_assignment. simpl.
  case_bool_decide as Hsize.
  { apply spec_ret. simpl. done. }
  apply spec_bind.
  eapply spec_conseq; [apply spec_select_next_variable| |].
  - simpl. intros variable s1 Hev1 (Ha1 & Hvar & Hfree).
    assert (view_ok self s1) as Hview1 by (by eapply view_ok_evolves).
    apply spec_bind.
    eapply spec_post; [apply spec_order_values; [done|congruence|done]|].
    simpl. intros values s2 Hev2 (Ha2 & Hview2 & d & Hd & Hperm).
    eapply (spec_try_values _ variable d (assignment s)); eauto; [|congruence|].
    + intros s3 value Hview3 Hgood3 Ha3.
      rewrite <- Ha3. apply Hrec; [done|by rewrite Ha3|].
      rewrite Ha3. by apply unassigned_shrinks.
    + intros x Hx. by rewrite <- Hperm.
  - simpl. intros e [[-> Hnil]|(k & -> & Hk & Hnone)].
    + pose proof (unassigned_nil _ Hnil) as Hall. split.
      * intros Hnd. apply Hsize. by apply all_bound_size; [apply Hgood| |].
      * intros v [x Hx]%Hall%elem_of_dom.
        destruct Hgood as (_ & _ & Hdom). destruct (Hdom v x Hx) as (d & ? & ?).
        eauto.
    + split; [done|by left].
Qed.

(** The main lemma: with more fuel than unassigned variables, a call started
    on a good assignment meets the specification of its body. *)
Lemma spec_recursive_backtracking fuel s :
  view_ok self s → good self (assignment s) →
  length (unassigned self (assignment s)) < fuel →
  spec self s (_recursive_backtracking self fuel)
    (returns self (assignment s)) (blame self).
Proof.
  revert s. induction fuel as [|fuel IH]; intros s Hview Hgood Hfuel; [lia|].
  simpl. apply spec_bind, spec_log_entry; [split; apply Hgood|].
  apply (spec_backtrack _ (Store _ _ _)); [done|done|].
  simpl. intros s1 Hview1 Hgood1 Hlt. apply IH; [done|done|lia].
Qed.

End Search.

(** ** The constraint graph *)

Lemma nview_extend g var others v :
  nview (extend g var others) v =
  if decide (var = v) then nview g v ++ others else nview g v.
Proof.
  unfold nview, extend. destruct (decide (var = v)) as [<-|Hne].
  - by rewrite lookup_insert_eq.
  - by rewrite lookup_insert_ne.
Qed.

Lemma graph_of_tuple_elem (tuple : list string) l g v x :
  x ∈ nview (foldl (λ g var, extend g var (filter (λ w, w ≠ var) tuple)) g l) v →
  x ∈ nview g v ∨ (x ∈ tuple ∧ v ∈ l ∧ x ≠ v).
Proof.
  revert g. induction l as [|var l IH]; intros g; simpl; [by left|].
  intros [Hin|(? & ? & ?)]%IH.
  - rewrite nview_extend in Hin. destruct (decide (var = v)) as [<-|Hne]; [|by left].
    apply elem_of_app in Hin as [?|[? ?]%list_elem_of_filter]; [by left|].
    right. split; [done|]. split; [by left|done].
  - right. split; [done|]. split; [by right|done].
Qed.

(** A neighbor shares a constraint with the variable, and differs from it. *)
Lemma create_constraint_graph_elem cs g v x :
  x ∈ nview (_create_constraint_graph cs g) v →
  x ∈ nview g v ∨ ∃ c, c ∈ cs ∧ x ∈ c_vars c ∧ v ∈ c_vars c ∧ x ≠ v.
Proof.
  unfold _create_constraint_graph. revert g.
  induction cs as [|c cs IH]; intros g; simpl; [by left|].
  intros [Hin|(c' & ? & ?)]%IH.
  - apply graph_of_tuple_elem in Hin as [?|(? & ? & ?)]; [by left|].
    right. exists c. split; [by left|done].
  - right. exists c'. split; [by right|done].
Qed.

(** ** [solve()] as a whole *)

Section Solve.
Context (self : CSP).

Lemma good_empty : good self ∅.
Proof.
  split; [|split].
  - intros c _ Hne Hb. destruct (c_vars c) as [|v l] eqn:Hvars; [done|].
    exfalso. apply Hb. rewrite Hvars. apply unbound_in_values.
    exists v. split; [by left|apply lookup_empty].
  - intros v [x Hx]. by rewrite lookup_empty in Hx.
  - intros v x Hx. by rewrite lookup_empty in Hx.
Qed.

Lemma run_solve_spec :
  spec self (Store (neighbors self) ∅ [])
    (_recursive_backtracking self (S (length (variables self))))
    (returns self ∅) (blame self).
Proof.
  apply (spec_recursive_backtracking self _ (Store (neighbors self) ∅ [])).
  - done.
  - apply good_empty.
  - simpl. unfold unassigned. pose proof (length_filter (λ v, v ∉ dom (∅ : gmap string Z))
                                            (variables self)). lia.
Qed.

(** The fuel [solve] hands out is never used up: the model of [solve()]
    always returns or raises. *)
Lemma solve_has_fuel : (solve self).1 ≠ OutOfFuel.
Proof.
  pose proof run_solve_spec as H. unfold spec in H. unfold solve, run_solve.
  destruct (_recursive_backtracking _ _ _) as [[[]|e|] s']; simpl; done.
Qed.

Lemma consistent_bound_constraints_hold a :
  scopes_nonempty self → consistent self a → bound_constraints_hold self a.
Proof. intros Hne Hc c Hin. apply Hc; [done|]. by apply Hne. Qed.

Lemma complete_satisfies a :
  scopes_nonempty self → scopes_declared self →
  good self a → size a = length (variables self) → satisfies self a.
Proof.
  intros Hne Hdecl (Hcons & Hvars & _) Hsize c Hc.
  assert (fully_bound a c) as Hb.
  { intros (v & Hv & Hnone)%unbound_in_values.
    destruct (complete_binds_all self a Hvars Hsize v) as [x Hx]; [by eapply Hdecl|].
    congruence. }
  split; [done|]. apply Hcons; [done|by apply Hne|done].
Qed.

Lemma satisfiesb_spec a : satisfiesb self a = true ↔ satisfies self a.
Proof.
  unfold satisfiesb, satisfies, fully_bound. rewrite forallb_forall. split.
  - intros H c Hc%list_elem_of_In. specialize (H c Hc).
    apply andb_true_iff in H as [H1%bool_decide_eq_true H2%bool_decide_eq_true].
    done.
  - intros H c Hc%list_elem_of_In. destruct (H c Hc) as [H1 H2].
    apply andb_true_iff. by rewrite !bool_decide_eq_true.
Qed.

(** An exception of [solve()] always points at a defect of the instance. *)
Lemma solve_raise_blame e : (solve self).1 = Raise e → blame self e.
Proof.
  pose proof run_solve_spec as Hspec. unfold spec in Hspec. unfold solve, run_solve.
  destruct (_recursive_backtracking _ _ _) as [[[]|e'|] s']; simpl; try done.
  intros [= <-]. apply Hspec.
Qed.

End Solve.

(** On a well-formed instance built by [__init__], [solve()] returns: a dict
    or [None], never an exception. *)
Lemma solve_returns vs ds cs :
  well_formed (__init__ vs ds cs) →
  ∃ r, (solve (__init__ vs ds cs)).1 = Ok r.
Proof.
  intros (Hnd & Hdom & Hdecl & _ & Htot).
  destruct (solve (__init__ vs ds cs)).1 as [r|e|] eqn:Hrun; [by exists r| |].
  - exfalso. apply solve_raise_blame in Hrun. destruct e as [k| |]; simpl in Hrun.
    + destruct Hrun as [Hnone [Hk|[w Hk]]].
      * destruct (Hdom k Hk) as [d Hd]. simpl in Hd. congruence.
      * apply create_constraint_graph_elem in Hk as [Hk|(c & Hc & Hk & _)].
        { unfold nview in Hk. rewrite lookup_empty in Hk. by apply elem_of_nil in Hk. }
        destruct (Hdom k (Hdecl c k Hc Hk)) as [d Hd]. simpl in Hd. congruence.
    + by destruct Hrun as [Hdup _].
    + destruct Hrun as (c & vals & Hc & Hlen & Hnone).
      destruct (Htot c vals Hc Hlen) as [b Hb]. congruence.
  - by apply solve_has_fuel in Hrun.
Qed.

(** ** Constraints over names that are not variables *)


(** ** Variable selection *)

Section KeyedLists.
Context {A : Type}.

Lemma zip_fmap_self (f : A → nat) (l : list A) :
  zip (f <$> l) l = (λ v, (f v, v)) <$> l.
Proof. induction l as [|x l IH]; simpl; [done|]. f_equal. exact IH. Qed.

Lemma insert_by_key_sorted (x : nat * A) l :
  StronglySorted key_le l → StronglySorted key_le (insert_by_key x l).
Proof.
  induction 1 as [|y l Hsorted IH Hall]; simpl.
  - repeat constructor.
  - destruct (y.1 <? x.1)%nat eqn:Hlt.
    + apply Nat.ltb_lt in Hlt. constructor; [done|].
      rewrite insert_by_key_perm. constructor; [|done]. unfold key_le. lia.
    + apply Nat.ltb_ge in Hlt. constructor.
      * by constructor.
      * constructor; [done|]. eapply Forall_impl; [exact Hall|].
        unfold key_le. intros z Hz. simpl in *. lia.
Qed.

Lemma sort_by_key_sorted (l : list (nat * A)) :
  StronglySorted key_le (foldr insert_by_key [] l).
Proof.
  induction l as [|x l IH]; simpl; [constructor|]. by apply insert_by_key_sorted.
Qed.

(** [max] returns the first element whose key no other exceeds: the keys
    before it are smaller, the keys after it are not larger. *)
Lemma max_from_split (best : nat * A) l :
  ∃ l1 l2 k, best :: l = l1 ++ (k, max_from best l) :: l2 ∧
             Forall (λ p, p.1 < k) l1 ∧ Forall (λ p, p.1 ≤ k) l2.
Proof.
  revert best. induction l as [|y l IH]; intros best; simpl.
  - exists [], [], best.1. split; [by destruct best|]. split; constructor.
  - destruct (best.1 <? y.1)%nat eqn:Hlt.
    + apply Nat.ltb_lt in Hlt.
      destruct (IH y) as (l1 & l2 & k & Heq & H1 & H2).
      exists (best :: l1), l2, k. split; [by rewrite Heq|]. split; [|done].
      constructor; [|done].
      destruct l1 as [|z l1]; simpl in Heq.
      * injection Heq as Hy _. rewrite Hy in Hlt. simpl in Hlt. lia.
      * injection Heq as <- _. apply Forall_cons in H1 as [Hz _]. lia.
    + apply Nat.ltb_ge in Hlt.
      destruct (IH best) as (l1 & l2 & k & Heq & H1 & H2).
      destruct l1 as [|z l1]; simpl in Heq.
      * injection Heq as Hb Hl. exists [], (y :: l2), k.
        split; [simpl; by rewrite <- Hb, Hl|]. split; [constructor|].
        constructor; [|done]. rewrite Hb in Hlt. simpl in Hlt. lia.
      * injection Heq as <- Hl. apply Forall_cons in H1 as [Hz H1].
        exists (best :: y :: l1), l2, k.
        split; [simpl; do 2 f_equal; exact Hl|]. split; [|done].
        constructor; [done|]. constructor; [lia|done].
Qed.

End KeyedLists.

Section Selection.
Context (self : CSP).

Lemma bind_ok {A B} (m : M A) (k : A → M B) s a s' :
  m s = (Ok a, s') → bind m k s = k a s'.
Proof. unfold bind. by intros ->. Qed.

Lemma map_m_domain_sizes l s :
  (∀ v, v ∈ l → is_Some (domains self !! v)) →
  map_m (λ v, d <- domains_getitem self v ;; ret (length d)) l s
  = (Ok (dsize self <$> l), s).
Proof.
  intros Hdom. induction l as [|v l IH]; simpl; [done|].
  destruct (Hdom v) as [d Hd]; [by left|].
  erewrite bind_ok; [|unfold bind, domains_getitem; rewrite Hd; reflexivity].
  erewrite bind_ok; [|apply IH; intros w Hw; apply Hdom; by right].
  unfold ret, dsize. by rewrite Hd.
Qed.

Lemma map_m_degrees l s :
  ∃ nb,
    map_m (λ v, n <- neighbors_getitem v ;; ret (length n)) l s
    = (Ok (degree (self_neighbors s) <$> l), Store nb (assignment s) (entered s)) ∧
    grows (self_neighbors s) nb.
Proof.
  revert s. induction l as [|v l IH]; intros s; simpl.
  - exists (self_neighbors s). split; [by destruct s|apply grows_refl].
  - unfold bind at 1. unfold bind at 1. unfold neighbors_getitem at 1.
    destruct (self_neighbors s !! v) as [n|] eqn:Hn.
    + destruct (IH s) as (nb & Hrun & Hg). exists nb. split; [|done].
      simpl. erewrite bind_ok; [|exact Hrun]. unfold ret, degree. by rewrite Hn.
    + set (s1 := Store (<[v := []]> (self_neighbors s)) (assignment s) (entered s)).
      assert (grows (self_neighbors s) (self_neighbors s1)) as Hg1.
      { intros w. simpl. destruct (decide (v = w)) as [<-|Hne].
        - right. by rewrite lookup_insert_eq.
        - left. by rewrite lookup_insert_ne. }
      destruct (IH s1) as (nb & Hrun & Hg). exists nb.
      split; [|by eapply grows_trans].
      simpl. erewrite bind_ok; [|exact Hrun]. unfold ret. simpl.
      do 2 f_equal. unfold degree at 2. rewrite Hn. simpl. f_equal.
      apply list_fmap_ext. intros i w _. unfold degree.
      f_equal. by apply (grows_nview _ _ w) in Hg1.
Qed.

End Selection.

Section FirstMaximum.
Context {A : Type}.

Lemma keyed_sorted_snd (f : A → nat) (l : list (nat * A)) :
  StronglySorted key_le l → Forall (λ p, p.1 = f p.2) l →
  StronglySorted (λ u w, f u ≤ f w) l.*2.
Proof.
  induction 1 as [|p l Hsorted IH Hall]; intros Hkeys; simpl; [constructor|].
  apply Forall_cons in Hkeys as [Hp Hkeys]. constructor; [by apply IH|].
  apply Forall_fmap. apply Forall_forall. intros q Hq. simpl.
  pose proof (proj1 (Forall_forall _ _) Hall q Hq) as Hle.
  pose proof (proj1 (Forall_forall _ _) Hkeys q Hq) as Hkq.
  unfold key_le in Hle. simpl in Hkq. lia.
Qed.

Lemma max_by_key_first_max (g : A → nat) (l : list A) m :
  max_by_key ((λ v, (g v, v)) <$> l) = Some m →
  ∃ l1 l2, l = l1 ++ m :: l2 ∧
           Forall (λ u, g u < g m) l1 ∧ Forall (λ u, g u ≤ g m) l2.
Proof.
  destruct l as [|x l]; [done|]. simpl. intros [= <-].
  destruct (max_from_split (g x, x) ((λ v, (g v, v)) <$> l))
    as (k1 & k2 & k & Heq & H1 & H2).
  change ((g x, x) :: ((λ v, (g v, v)) <$> l))
    with ((λ v, (g v, v)) <$> (x :: l)) in Heq.
  apply fmap_app_inv in Heq as (l1 & l2' & -> & Hk2 & Hl).
  symmetry in Hk2. apply fmap_cons_inv in Hk2 as (y & l2 & Hy & -> & ->).
  injection Hy as -> Hm. exists l1, l2. rewrite <- Hm in *.
  split; [done|]. split.
  - apply Forall_fmap in H1. by simpl in H1.
  - apply Forall_fmap in H2. by simpl in H2.
Qed.

End FirstMaximum.

(** ** Instances without constraints *)

Lemma sort_equal_keys {A} (l : list (nat * A)) :
  Forall (λ p, p.1 = 0) l → foldr insert_by_key [] l = l.
Proof.
  induction 1 as [|x l Hx Hall IH]; simpl; [done|]. rewrite IH.
  destruct Hall as [|y l Hy Hall]; simpl; [done|]. by rewrite Hx, Hy.
Qed.

Lemma sorted_by_key_equal_keys {A} (keys : list nat) (xs : list A) :
  Forall2 (λ _ n, n = 0) xs keys → sorted_by_key (zip keys xs) = xs.
Proof.
  intros Hkeys. unfold sorted_by_key. rewrite sort_equal_keys.
  - apply snd_zip. apply Forall2_length in Hkeys. lia.
  - clear -Hkeys. induction Hkeys as [|x n xs keys -> _ IH]; simpl; by constructor.
Qed.

Section NoConstraints.
Context (self : CSP).
Hypothesis no_constraints : constraints self = [].
Hypothesis no_neighbors : ∀ v, nview (neighbors self) v = [].
Hypothesis distinct : NoDup (variables self).
Hypothesis nonempty_domains :
  ∀ v, v ∈ variables self → ∃ x d, domains self !! v = Some (x :: d).

Lemma spec_is_assignment_valid_free s variable value :
  assignment s !! variable = None →
  spec self s (_is_assignment_valid self variable value)
    (λ ok s', ok = true ∧ s' = s) never.
Proof.
  intros Hfree. unfold spec. rewrite is_assignment_valid_unbound by done.
  rewrite no_constraints. simpl. split; [apply evolves_refl|done].
Qed.

Lemma spec_count_conflicts_free s variable value :
  view_ok self s → assignment s !! variable = None →
  spec self s (count_conflicts self variable value)
    (λ n s', n = 0 ∧ assignment s' = assignment s) never.
Proof.
  intros Hview Hfree. unfold count_conflicts.
  apply spec_bind, spec_setitem. apply spec_bind, spec_neighbors_getitem.
  intros nb Hnb. simpl. rewrite Hview, no_neighbors. simpl.
  apply spec_bind, spec_ret. apply spec_bind, spec_delitem.
  - simpl. rewrite lookup_insert_eq. eauto.
  - apply spec_ret. simpl. split; [done|].
    rewrite delete_insert_eq. by apply delete_id.
Qed.

Lemma spec_order_values_free s variable d :
  view_ok self s → assignment s !! variable = None →
  domains self !! variable = Some d →
  spec self s (_order_values_by_least_conflicts self variable)
    (λ values s', values = d ∧ assignment s' = assignment s ∧ view_ok self s')
    never.
Proof.
  intros Hview Hfree Hd. unfold _order_values_by_least_conflicts.
  apply spec_bind, spec_domains_getitem; [|congruence].
  intros d' Hd'. assert (d' = d) as -> by congruence. apply spec_bind.
  eapply spec_post;
    [apply (spec_map_m self _
              (λ s', assignment s' = assignment s ∧ view_ok self s') (λ _ n, n = 0));
     [|done] |].
  - intros value s' _ [Ha Hv'].
    eapply spec_post; [apply spec_count_conflicts_free; [done|congruence]|].
    simpl. intros n s'' Hev [-> Ha'']. split; [|done].
    split; [congruence|by eapply view_ok_evolves].
  - simpl. intros keys s' _ [[Ha Hv'] Hkeys]. apply spec_ret.
    split; [|done]. by apply sorted_by_key_equal_keys.
Qed.

Lemma spec_backtrack_free (rec : M result) s :
  view_ok self s →
  (∀ v, is_Some (assignment s !! v) → v ∈ variables self) →
  (∀ s1 variable value,
     view_ok self s1 → variable ∈ variables self →
     assignment s !! variable = None →
     assignment s1 = <[variable := value]> (assignment s) →
     spec self s1 rec (returns_first_values self (assignment s1)) never) →
  spec self s (backtrack self rec) (returns_first_values self (assignment s)) never.
Proof.
  intros Hview Hdecl Hrec. unfold backtrack.
  apply spec_bind, spec_get_assignment. simpl.
  case_bool_decide as Hsize.
  { apply spec_ret. split; [done|]. split; [done|]. split; [done|].
    intros v Hv Hnone. exfalso.
    destruct (complete_binds_all self _ Hdecl Hsize v Hv) as [x Hx]. congruence. }
  apply spec_bind.
  eapply spec_conseq; [apply spec_select_next_variable| |].
  - simpl. intros variable s1 Hev1 (Ha1 & Hvar & Hfree).
    assert (view_ok self s1) as Hview1 by (by eapply view_ok_evolves).
    destruct (nonempty_domains variable Hvar) as (x & d & Hd).
    apply spec_bind.
    eapply spec_post; [by apply (spec_order_values_free _ _ (x :: d)); [|congruence|]|].
    simpl. intros values s2 Hev2 (-> & Ha2 & Hview2). simpl.
    apply spec_bind.
    eapply spec_post; [apply spec_is_assignment_valid_free; congruence|].
    simpl. intros ok s3 _ [-> ->]. apply spec_bind, spec_setitem. apply spec_bind.
    eapply spec_post;
      [apply (Hrec _ variable x); [done|done|done|simpl; congruence]|].
    simpl. intros r s3 Hev3 (-> & Hsize3 & Hsub3 & Hfirst3). rewrite Ha2, Ha1 in *.
    assert (assignment s3 !! variable = Some x) as Hx.
    { eapply lookup_weaken; [|exact Hsub3]. apply lookup_insert_eq. }
    apply spec_bind, spec_truthy. rewrite bool_decide_eq_false_2.
    + simpl. apply spec_ret. split; [done|]. split; [done|]. split.
      * etrans; [|exact Hsub3]. by apply insert_subseteq.
      * intros v Hv Hnone. destruct (decide (variable = v)) as [<-|Hne]; [eauto|].
        apply Hfirst3; [done|]. by rewrite lookup_insert_ne.
    + intros Hempty. rewrite Hempty in Hx. by rewrite lookup_empty in Hx.
  - unfold never. intros e [[-> Hnil]|(k & -> & Hk & Hnone)].
    + apply Hsize. apply all_bound_size; [done| |done]. by apply unassigned_nil.
    + destruct (nonempty_domains k Hk) as (x & d & Hd). congruence.
Qed.

Lemma spec_recursive_backtracking_free fuel s :
  view_ok self s →
  (∀ v, is_Some (assignment s !! v) → v ∈ variables self) →
  length (unassigned self (assignment s)) < fuel →
  spec self s (_recursive_backtracking self fuel)
    (returns_first_values self (assignment s)) never.
Proof.
  revert s. induction fuel as [|fuel IH]; intros s Hview Hdecl Hfuel; [lia|].
  simpl. apply spec_bind, spec_log_entry.
  { split; [|done]. intros c Hc. rewrite no_constraints in Hc.
    by apply elem_of_nil in Hc. }
  apply (spec_backtrack_free _ (Store _ _ _)); [done|done|].
  simpl. intros s1 variable value Hview1 Hvar Hfree Ha1. apply IH; [done| |].
  - rewrite Ha1. intros v [y Hy]. destruct (decide (variable = v)) as [<-|Hne]; [done|].
    rewrite lookup_insert_ne in Hy by done. apply Hdecl. eauto.
  - rewrite Ha1.
    pose proof (unassigned_shrinks self (assignment s) variable value Hvar Hfree).
    lia.
Qed.

End NoConstraints.

(** ** Facts about the instances *)

Ltac each_constraint H :=
  repeat (apply elem_of_cons in H as [->|H]); [..|by apply elem_of_nil in H].

Ltac listed := by repeat constructor.

Ltac unlisted :=
  let H := fresh in
  intros H; repeat (apply elem_of_cons in H as [?|H]; [discriminate|]);
  by apply elem_of_nil in H.

Lemma pred2_total f vals : length vals = 2 → is_Some (pred2 f vals).
Proof. destruct vals as [|a [|b [|c l]]]; by simpl. Qed.

Lemma pred3_total f vals : length vals = 3 → is_Some (pred3 f vals).
Proof. destruct vals as [|a [|b [|c [|d l]]]]; by simpl. Qed.

Lemma csp_predicates_total : predicates_total csp.
Proof.
  intros c vals Hc Hlen. simpl in Hc.
  each_constraint Hc; simpl in *; auto using pred2_total, pred3_total.
Qed.

Lemma csp_scopes_nonempty : scopes_nonempty csp.
Proof. intros c Hc. simpl in Hc. each_constraint Hc; done. Qed.

Lemma csp_scopes_declared : scopes_declared csp.
Proof.
  intros c v Hc Hv. simpl in Hc. each_constraint Hc; simpl in Hv; each_constraint Hv; listed.
Qed.

Lemma csp_solve : (solve csp).1 = Ok (Some example_solution).
Proof. vm_compute. reflexivity. Qed.

Example csp_solution_checked : satisfiesb csp example_solution = true.
Proof. vm_compute. reflexivity. Qed.

(** When the name has no domain and shares a constraint with a listed
    variable, ordering the values of that variable fails. *)
Example csp_missing_domain_raises :
  (solve csp_missing_domain).1 = Raise (KeyError "B").
Proof. vm_compute. reflexivity. Qed.

(** The unsatisfiable instance of the specification: [A] and [B] with domain
    [1] each and the constraint that they differ. *)
Example unsatisfiable_instance :
  (solve (__init__ ["A"; "B"]%string (list_to_map [("A", [1]); ("B", [1])]%string%Z)
            [Constraint ["A"; "B"]%string (pred2 (λ a b, negb (a =? b)%Z))])).1
  = Ok None.
Proof. vm_compute. reflexivity. Qed.

Lemma csp_empty_domain_well_formed :
  domains_total csp_empty_domain ∧ scopes_declared csp_empty_domain ∧
  predicates_total csp_empty_domain.
Proof.
  split; [|split].
  - intros v Hv. simpl in Hv.
    repeat (apply elem_of_cons in Hv as [->|Hv]);
      [vm_compute; eauto..|by apply elem_of_nil in Hv].
  - intros c v Hc Hv. simpl in Hc. each_constraint Hc; simpl in Hv; each_constraint Hv; listed.
  - intros c vals Hc Hlen. simpl in Hc.
    each_constraint Hc; simpl in *; auto using pred2_total.
Qed.

Lemma degree_wins_unassigned :
  unassigned csp_degree_wins (assignment degree_wins_start) = ["A"; "B"; "C"]%string.
Proof. vm_compute. reflexivity. Qed.

(** ** The properties of the specification *)

(** C1. Whenever [solve()] returns a dict, on an instance whose constraints
    each range over at least one variable and only over listed variables, the
    dict has as many entries as there are variables and every constraint is
    fully bound and true on the values of its tuple, in tuple order. *)
Theorem solve_returns_solution (self : CSP) (S : gmap string Z) :
  scopes_nonempty self → scopes_declared self →
  (solve self).1 = Ok (Some S) →
  size S = length (variables self) ∧ satisfies self S.
Proof.
  intros Hne Hdecl. pose proof (run_solve_spec self) as Hspec.
  unfold spec in Hspec. unfold solve, run_solve.
  destruct (_recursive_backtracking _ _ _) as [[[]|e|] s']; simpl; try done.
  intros [= <-]. destruct Hspec as [_ (_ & Hgood & Hsize)].
  split; [done|]. by apply complete_satisfies.
Qed.

Lemma solve_returns_solution_witness :
  size example_solution = length (variables csp) ∧ satisfies csp example_solution.
Proof.
  apply (solve_returns_solution csp example_solution).
  - exact csp_scopes_nonempty.
  - exact csp_scopes_declared.
  - exact csp_solve.
Defined.

(** C2, as the code has it. When every unassigned variable has a domain and
    there is one, the selector returns, leaves the assignment alone, and the
    variable it returns has the most neighbors among the unassigned
    variables; among those with the most neighbors it has the fewest
    remaining values. *)
Theorem select_maximizes_degree (self : CSP) (s : store) :
  (∀ v, v ∈ unassigned self (assignment s) → is_Some (domains self !! v)) →
  unassigned self (assignment s) ≠ [] →
  ∃ v s', _select_next_variable self s = (Ok v, s') ∧
          assignment s' = assignment s ∧
          degree_choice self (self_neighbors s) (assignment s) v.
Proof.
  intros Hdom Hne. unfold _select_next_variable.
  erewrite bind_ok; [|reflexivity].
  fold (unassigned self (assignment s)). set (U := unassigned self (assignment s)) in *.
  erewrite bind_ok; [|by apply map_m_domain_sizes].
  rewrite zip_fmap_self. unfold sorted_by_key.
  set (PL := foldr insert_by_key [] ((λ v, (dsize self v, v)) <$> U)).
  assert (PL ≡ₚ (λ v, (dsize self v, v)) <$> U) as HPperm by apply sort_by_key_perm.
  assert (PL.*2 ≡ₚ U) as HLperm.
  { rewrite HPperm, <- list_fmap_compose. by rewrite list_fmap_id. }
  assert (StronglySorted (λ u w, dsize self u ≤ dsize self w) PL.*2) as Hsorted.
  { apply keyed_sorted_snd; [apply sort_by_key_sorted|].
    rewrite HPperm. by apply Forall_fmap, Forall_forall. }
  destruct (map_m_degrees PL.*2 s) as (nb & Hrun & Hg).
  erewrite bind_ok; [|exact Hrun]. rewrite zip_fmap_self.
  destruct (max_by_key _) as [m|] eqn:Hmax.
  - exists m, (Store nb (assignment s) (entered s)). split; [done|]. split; [done|].
    apply max_by_key_first_max in Hmax as (l1 & l2 & Hsplit & H1 & H2).
    assert (∀ u, u ∈ U → u ∈ l1 ∨ u = m ∨ u ∈ l2) as Hcases.
    { intros u Hu. rewrite <- HLperm, Hsplit in Hu.
      apply elem_of_app in Hu as [?|Hu]; [by left|].
      apply elem_of_cons in Hu as [?|?]; auto. }
    split; [|split].
    + fold (unassigned self (assignment s)). fold U.
      rewrite <- HLperm, Hsplit. apply elem_of_app. right. by left.
    + intros u Hu. destruct (Hcases u Hu) as [Hin|[->|Hin]]; [|done|].
      * pose proof (proj1 (Forall_forall _ _) H1 u Hin) as Hlt. simpl in Hlt. lia.
      * by apply (proj1 (Forall_forall _ _) H2 u).
    + intros u Hu Hdeg. destruct (Hcases u Hu) as [Hin|[->|Hin]]; [|done|].
      * pose proof (proj1 (Forall_forall _ _) H1 u Hin) as Hlt. simpl in Hlt. lia.
      * rewrite Hsplit in Hsorted. apply StronglySorted_app_1_r in Hsorted.
        apply StronglySorted_inv in Hsorted as [_ Hall].
        by apply (proj1 (Forall_forall _ _) Hall u).
  - exfalso. apply max_by_key_None in Hmax. apply fmap_nil_inv in Hmax.
    apply Hne. apply Permutation_nil_r. by rewrite <- HLperm, Hmax.
Qed.

Lemma select_maximizes_degree_witness :
  ∃ v s', _select_next_variable csp_degree_wins degree_wins_start = (Ok v, s') ∧
          assignment s' = assignment degree_wins_start ∧
          degree_choice csp_degree_wins (self_neighbors degree_wins_start)
            (assignment degree_wins_start) v.
Proof.
  apply (select_maximizes_degree csp_degree_wins degree_wins_start).
  - intros v Hv. rewrite degree_wins_unassigned in Hv.
    each_constraint Hv; vm_compute; eauto.
  - by rewrite degree_wins_unassigned.
Defined.

(** C2, as stated, fails: at the first call of [solve()] on an instance where
    [A] has one value and [B] and [C] have two values and one neighbor each,
    the selector returns [B], which does not have the fewest values. *)
Lemma select_prefers_degree_over_mrv :
  ∃ s', _select_next_variable csp_degree_wins degree_wins_start = (Ok "B"%string, s') ∧
        ¬ mrv_choice csp_degree_wins (self_neighbors degree_wins_start)
            (assignment degree_wins_start) "B".
Proof.
  eexists. split; [vm_compute; reflexivity|].
  intros (_ & Hmin & _). specialize (Hmin "A"%string).
  fold (unassigned csp_degree_wins (assignment degree_wins_start)) in Hmin.
  rewrite degree_wins_unassigned in Hmin.
  assert (dsize csp_degree_wins "B" = 2) as HB by reflexivity.
  assert (dsize csp_degree_wins "A" = 1) as HA by reflexivity.
  rewrite HA, HB in Hmin. assert (2 ≤ 1) by (apply Hmin; listed). lia.
Qed.

(** C3, as the code has it. When the variable is not bound before the call
    (every call the solver makes), the store after a call that returns is the
    store before it, whether the result is true or false. *)
Theorem is_assignment_valid_restores (self : CSP) variable value (s : store) ok :
  assignment s !! variable = None →
  (_is_assignment_valid self variable value s).1 = Ok ok →
  (_is_assignment_valid self variable value s).2 = s.
Proof.
  intros Hfree. rewrite is_assignment_valid_unbound by done.
  by destruct (check_constraints _ _ _).
Qed.

Lemma is_assignment_valid_restores_witness :
  (_is_assignment_valid csp "C" 2%Z store_B2).1 = Ok false ∧
  (_is_assignment_valid csp "C" 2%Z store_B2).2 = store_B2.
Proof.
  assert ((_is_assignment_valid csp "C" 2%Z store_B2).1 = Ok false) as Hrun.
  { vm_compute. reflexivity. }
  split; [exact Hrun|].
  exact (is_assignment_valid_restores csp "C" 2%Z store_B2 false eq_refl Hrun).
Defined.

(** C3, as stated, fails when the variable is already bound: the call
    returns and the binding is gone. *)
Lemma is_assignment_valid_drops_bound_variable :
  ∃ ok s', _is_assignment_valid csp "A" 2%Z (Store (neighbors csp) {["A" := 1%Z]} [])
           = (Ok ok, s') ∧
           assignment s' ≠ {["A" := 1%Z]}.
Proof.
  exists true, (Store (neighbors csp) ∅ []). split.
  - vm_compute. reflexivity.
  - simpl. intros Heq.
    assert ((∅ : gmap string Z) !! "A"%string = Some 1%Z) as Hl.
    { rewrite Heq. apply lookup_insert_eq. }
    by rewrite lookup_empty in Hl.
Qed.

(** C4. With predicates that return on tuples of their arity, a call returns,
    and it returns false exactly when some constraint over the variable is
    fully bound under the tentative assignment and its predicate is false on
    those values; so it returns true when every constraint over the variable
    still has an unbound variable. *)
Theorem is_assignment_valid_false_iff (self : CSP) variable value (s : store) :
  predicates_total self →
  ∃ ok s',
    _is_assignment_valid self variable value s = (Ok ok, s') ∧
    (ok = false ↔
     ∃ c, c ∈ constraints self ∧ variable ∈ c_vars c ∧
          fully_bound (<[variable := value]> (assignment s)) c ∧
          eval (<[variable := value]> (assignment s)) c = Some false) ∧
    ((∀ c, c ∈ constraints self → variable ∈ c_vars c →
           ¬ fully_bound (<[variable := value]> (assignment s)) c) →
     ok = true).
Proof.
  intros Htot. rewrite is_assignment_valid_run.
  destruct (check_constraints_total variable (constraints self)
              (<[variable := value]> (assignment s))) as (ok & Hrun & Hiff).
  { intros c vals. apply Htot. }
  rewrite Hrun. eexists ok, _. split; [done|]. split; [done|].
  intros Hskip. destruct ok; [done|].
  destruct Hiff as [Hex _]. destruct (Hex eq_refl) as (c & Hc & Hv & Hb & _).
  by destruct (Hskip c Hc Hv).
Qed.

Lemma is_assignment_valid_false_iff_witness :
  ∃ ok s',
    _is_assignment_valid csp "C" 2%Z store_B2 = (Ok ok, s') ∧
    (ok = false ↔
     ∃ c, c ∈ constraints csp ∧ "C"%string ∈ c_vars c ∧
          fully_bound (<["C"%string := 2%Z]> (assignment store_B2)) c ∧
          eval (<["C"%string := 2%Z]> (assignment store_B2)) c = Some false) ∧
    ((∀ c, c ∈ constraints csp → "C"%string ∈ c_vars c →
           ¬ fully_bound (<["C"%string := 2%Z]> (assignment store_B2)) c) →
     ok = true).
Proof.
  exact (is_assignment_valid_false_iff csp "C" 2%Z store_B2 csp_predicates_total).
Defined.

(** C5. On an instance whose constraints each range over at least one
    variable, every assignment seen at the entry of a call of
    [_recursive_backtracking] during [solve()] satisfies every constraint
    whose tuple it binds in full (the others are not looked at). *)
Theorem entered_assignments_consistent (self : CSP) (a : gmap string Z) :
  scopes_nonempty self →
  a ∈ entered (run_solve self).2 →
  bound_constraints_hold self a.
Proof.
  intros Hne. pose proof (run_solve_spec self) as Hspec. unfold spec in Hspec.
  unfold run_solve.
  destruct (_recursive_backtracking _ _ _) as [[r|e|] s']; simpl; [| |done];
    destruct Hspec as [[_ (l & -> & Hall)] _]; simpl;
    intros Hin; apply consistent_bound_constraints_hold; try done;
    (eapply Forall_forall in Hall; [|done]); apply Hall.
Qed.

Lemma entered_assignments_consistent_witness :
  bound_constraints_hold csp example_solution.
Proof.
  apply (entered_assignments_consistent csp example_solution).
  - exact csp_scopes_nonempty.
  - apply (list_elem_of_lookup_2 _ 5). vm_compute. reflexivity.
Defined.

(** The last call on [csp] is entered with the complete assignment, which
    binds the tuple of each of the six constraints. *)
Example example_solution_binds_all :
  entered (run_solve csp).2 !! 5 = Some example_solution ∧
  ∀ c, c ∈ constraints csp → fully_bound example_solution c.
Proof.
  split; [vm_compute; reflexivity|].
  intros c Hc. simpl in Hc.
  each_constraint Hc; unfold fully_bound; apply (bool_decide_unpack _);
    vm_compute; exact I.
Qed.

(** The history is not empty: the first call is entered with the empty
    assignment. *)
Lemma first_entered_is_empty (self : CSP) :
  entered (run_solve self).2 !! 0 = Some ∅.
Proof.
  assert (spec self (Store (neighbors self) ∅ [∅])
            (backtrack self (_recursive_backtracking self (length (variables self))))
            (returns self ∅) (blame self)) as Hspec.
  { apply (spec_backtrack self _ (Store (neighbors self) ∅ [∅])).
    - done.
    - apply good_empty.
    - simpl. intros s1 Hview1 Hgood1 Hlt.
      apply spec_recursive_backtracking; try done.
      pose proof (length_filter (λ v, v ∉ dom (∅ : gmap string Z)) (variables self)).
      unfold unassigned in *. lia. }
  unfold spec in Hspec.
  change (run_solve self) with
    (backtrack self (_recursive_backtracking self (length (variables self)))
       (Store (neighbors self) ∅ [∅])).
  destruct (backtrack _ _ _) as [[r|e|] s']; simpl; [| |done];
    by destruct Hspec as [[_ (l & -> & _)] _].
Qed.

(** C6. On an instance built by [__init__] in which every variable has a
    domain, constraints range over listed variables and predicates return on
    tuples of their arity, an empty domain makes [solve()] return [None]: it
    neither raises nor returns a dict. *)
Theorem empty_domain_no_solution (vs : list string) (ds : gmap string (list Z))
    (cs : list constraint) (v : string) :
  domains_total (__init__ vs ds cs) →
  scopes_declared (__init__ vs ds cs) →
  predicates_total (__init__ vs ds cs) →
  v ∈ vs → ds !! v = Some [] →
  (solve (__init__ vs ds cs)).1 = Ok None.
Proof.
  intros Hdom Hdecl Htot Hv Hempty.
  pose proof (run_solve_spec (__init__ vs ds cs)) as Hspec. unfold spec in Hspec.
  unfold solve, run_solve.
  destruct (_recursive_backtracking _ _ _) as [[[]|e|] s']; simpl; try done;
    exfalso.
  - destruct Hspec as [_ (_ & (_ & Hvars & Hvals) & Hsize)].
    destruct (complete_binds_all _ _ Hvars Hsize v Hv) as [x Hx].
    destruct (Hvals v x Hx) as (d & Hd & Hin). simpl in Hd.
    rewrite Hempty in Hd. injection Hd as <-. by apply elem_of_nil in Hin.
  - destruct Hspec as [_ Hblame]. destruct e as [k| |]; simpl in Hblame.
    + destruct Hblame as [Hnone [Hk|[w Hk]]].
      * destruct (Hdom k Hk) as [d Hd]. simpl in Hd. congruence.
      * apply create_constraint_graph_elem in Hk as [Hk|(c & Hc & Hk & _)].
        { unfold nview in Hk. rewrite lookup_empty in Hk. by apply elem_of_nil in Hk. }
        destruct (Hdom k (Hdecl c k Hc Hk)) as [d Hd]. simpl in Hd. congruence.
    + destruct Hblame as [_ Hall]. destruct (Hall v Hv) as (d & x & Hd & Hin).
      simpl in Hd. rewrite Hempty in Hd. injection Hd as <-.
      by apply elem_of_nil in Hin.
    + destruct Hblame as (c & vals & Hc & Hlen & Hnone).
      destruct (Htot c vals Hc Hlen) as [b Hb]. congruence.
Qed.

Lemma empty_domain_no_solution_witness : (solve csp_empty_domain).1 = Ok None.
Proof.
  destruct csp_empty_domain_well_formed as (Hdom & Hdecl & Htot).
  apply (empty_domain_no_solution _ _ _ "A" Hdom Hdecl Htot).
  - listed.
  - reflexivity.
Defined.

(** C7. On an instance built by [__init__] with no constraint, distinct
    variables and a non-empty domain for each, [solve()] returns a dict with
    one entry per variable, and each variable is bound to the first value of
    its domain. *)
Theorem solve_without_constraints (vs : list string) (ds : gmap string (list Z)) :
  NoDup vs →
  (∀ v, v ∈ vs → ∃ x d, ds !! v = Some (x :: d)) →
  ∃ S, (solve (__init__ vs ds [])).1 = Ok (Some S) ∧
       size S = length vs ∧
       ∀ v, v ∈ vs → ∃ x d, ds !! v = Some (x :: d) ∧ S !! v = Some x.
Proof.
  intros Hnd Hdom.
  assert (spec (__init__ vs ds []) (Store (neighbors (__init__ vs ds [])) ∅ [])
            (_recursive_backtracking (__init__ vs ds []) (S (length vs)))
            (returns_first_values (__init__ vs ds []) ∅) never) as Hspec.
  { apply (spec_recursive_backtracking_free (__init__ vs ds []) eq_refl
             (λ v, eq_refl) Hnd Hdom (S (length vs))
             (Store (neighbors (__init__ vs ds [])) ∅ [])).
    - done.
    - simpl. intros v [x Hx]. by rewrite lookup_empty in Hx.
    - pose proof (length_filter (λ v, v ∉ dom (∅ : gmap string Z)) vs).
      unfold unassigned. simpl. lia. }
  unfold solve, run_solve. unfold spec in Hspec.
  change (variables (__init__ vs ds [])) with vs.
  destruct (_recursive_backtracking _ _ _) as [[r|e|] s']; [| |done].
  - destruct Hspec as [_ (-> & Hsize & _ & Hfirst)].
    exists (assignment s'). split; [done|]. split; [done|].
    intros v Hv. apply Hfirst; [done|apply lookup_empty].
  - by destruct Hspec as [_ []].
Qed.

Lemma solve_without_constraints_witness :
  ∃ S, (solve (__init__ free_variables free_domains [])).1 = Ok (Some S) ∧
       size S = length free_variables ∧
       ∀ v, v ∈ free_variables →
            ∃ x d, free_domains !! v = Some (x :: d) ∧ S !! v = Some x.
Proof.
  apply (solve_without_constraints free_variables free_domains).
  - unfold free_variables. apply NoDup_cons. split; [unlisted|apply NoDup_singleton].
  - intros v Hv. unfold free_variables in Hv.
    each_constraint Hv; [by exists 2%Z, [1%Z]|by exists 3%Z, []].
Defined.

Example solve_free_variables :
  (solve (__init__ free_variables free_domains [])).1
  = Ok (Some (list_to_map [("A", 2); ("B", 3)]%string%Z)).
Proof. vm_compute. reflexivity. Qed.

(** C8, as the code has it. [solve()] changes no list of [neighbors] and
    removes no key; it can only add keys bound to the empty list (a lookup of
    a missing key in the defaultdict), so [neighbors[v]] reads the same before
    and after, for every [v]. *)
Theorem solve_neighbors_grow (self : CSP) :
  grows (neighbors self) (neighbors (solve self).2) ∧
  ∀ v, nview (neighbors (solve self).2) v = nview (neighbors self) v.
Proof.
  assert (grows (neighbors self) (neighbors (solve self).2)) as Hg.
  { pose proof (run_solve_spec self) as Hspec. unfold spec in Hspec.
    unfold solve, run_solve.
    destruct (_recursive_backtracking _ _ _) as [[r|e|] s']; simpl; [| |done];
      by destruct Hspec as [[Hg _] _]. }
  split; [done|]. intros v. by apply grows_nview.
Qed.

(** C8, as stated, fails: after [solve()] the defaultdict has a key it did
    not have after construction. *)
Lemma solve_adds_neighbors_key :
  neighbors csp_single !! "A"%string = None ∧
  neighbors (solve csp_single).2 !! "A"%string = Some [] ∧
  neighbors (solve csp_single).2 ≠ neighbors csp_single.
Proof.
  assert (neighbors csp_single !! "A"%string = None) as H1 by reflexivity.
  assert (neighbors (solve csp_single).2 !! "A"%string = Some []) as H2
    by (vm_compute; reflexivity).
  split; [done|]. split; [done|]. intros Heq. rewrite Heq in H2. congruence.
Qed.



(** On [csp_unlisted] two calls are entered, with the empty assignment and
    with [A = 1], the dict that [solve()] returns although the predicate of
    the constraint is false on every pair. *)
Example csp_unlisted_entered :
  entered (run_solve csp_unlisted).2 = [∅; {["A"%string := 1%Z]}] ∧
  (solve csp_unlisted).1 = Ok (Some {["A"%string := 1%Z]}).
Proof. split; vm_compute; reflexivity. Qed.

(** Where the constraint does count: value ordering (line 62) calls the
    checker for the unassigned neighbor [B], listed or not, which binds [B]
    for the time of the call and evaluates the predicate. *)
Example checker_called_for_unlisted_name :
  (_is_assignment_valid csp_unlisted_differs "B" 1%Z
     (store_A1 csp_unlisted_differs)).1 = Ok false ∧
  (_is_assignment_valid csp_unlisted_removed "B" 1%Z
     (store_A1 csp_unlisted_removed)).1 = Ok true ∧
  (_is_assignment_valid csp_unlisted_raises "B" 1%Z
     (store_A1 csp_unlisted_raises)).1 = Raise CallRaised ∧
  (count_conflicts csp_unlisted_differs "A" 1%Z
     (Store (neighbors csp_unlisted_differs) ∅ [])).1 = Ok 1 ∧
  (count_conflicts csp_unlisted_differs "A" 2%Z
     (Store (neighbors csp_unlisted_differs) ∅ [])).1 = Ok 0 ∧
  (_order_values_by_least_conflicts csp_unlisted_differs "A"
     (Store (neighbors csp_unlisted_differs) ∅ [])).1 = Ok [2; 1]%Z.
Proof. repeat split; vm_compute; reflexivity. Qed.


(** C10. With an empty list of variables [solve()] returns the empty dict,
    whatever the domains, the constraints and the neighbors are; no
    constraint is evaluated and the object is left as it was. *)
Theorem solve_no_variables (ds : gmap string (list Z)) (cs : list constraint)
    (nb : gmap string (list string)) :
  solve (MkCSP [] ds cs nb) = (Ok (Some ∅), MkCSP [] ds cs nb).
Proof. reflexivity. Qed.

(** ** Further properties: the constraint graph *)

Lemma graph_of_tuple_nview (tuple l : list string) g v :
  nview (foldl (λ g var, extend g var (filter (λ w, w ≠ var) tuple)) g l) v =
  nview g v ++
  mjoin ((λ var, if decide (var = v) then filter (λ w, w ≠ var) tuple else []) <$> l).
Proof.
  revert g. induction l as [|var l IH]; intros g; simpl.
  - by rewrite app_nil_r.
  - rewrite IH, nview_extend. destruct (decide (var = v)); [|done].
    by rewrite app_assoc.
Qed.

(** The content of a neighbor list, in order: what the defaultdict held,
    followed by what each constraint adds, constraint after constraint. *)
Lemma create_constraint_graph_nview cs g v :
  nview (_create_constraint_graph cs g) v = nview g v ++ mjoin (shared v <$> cs).
Proof.
  unfold _create_constraint_graph. revert g.
  induction cs as [|c cs IH]; intros g; simpl.
  - by rewrite app_nil_r.
  - rewrite IH, graph_of_tuple_nview. by rewrite app_assoc.
Qed.

Lemma elem_of_shared x v c :
  x ∈ shared v c ↔ v ∈ c_vars c ∧ x ∈ c_vars c ∧ x ≠ v.
Proof.
  unfold shared. rewrite list_elem_of_join. split.
  - intros (l & Hx & Hl). apply list_elem_of_fmap in Hl as (var & -> & Hvar).
    destruct (decide (var = v)) as [->|]; [|by apply elem_of_nil in Hx].
    apply list_elem_of_filter in Hx as [? ?]. done.
  - intros (Hv & Hx & Hne). exists (filter (λ w, w ≠ v) (c_vars c)). split.
    + by apply list_elem_of_filter.
    + apply list_elem_of_fmap. exists v. by rewrite decide_True.
Qed.

(** X1. After construction, [x] is in [neighbors[v]] exactly when some
    constraint ranges over both and [x] is not [v]; so no variable is its own
    neighbor. *)
Theorem neighbors_after_init (vs : list string) (ds : gmap string (list Z))
    (cs : list constraint) (v x : string) :
  (x ∈ nview (neighbors (__init__ vs ds cs)) v ↔
   ∃ c, c ∈ cs ∧ v ∈ c_vars c ∧ x ∈ c_vars c ∧ x ≠ v) ∧
  v ∉ nview (neighbors (__init__ vs ds cs)) v.
Proof.
  assert (∀ y, y ∈ nview (neighbors (__init__ vs ds cs)) v ↔
               ∃ c, c ∈ cs ∧ v ∈ c_vars c ∧ y ∈ c_vars c ∧ y ≠ v) as Hiff.
  { intros y. simpl. rewrite create_constraint_graph_nview.
    unfold nview at 1. rewrite lookup_empty. simpl.
    rewrite list_elem_of_join. split.
    - intros (l & Hy & Hl). apply list_elem_of_fmap in Hl as (c & -> & Hc).
      exists c. split; [done|]. by apply elem_of_shared.
    - intros (c & Hc & Hy). exists (shared v c). split; [by apply elem_of_shared|].
      apply list_elem_of_fmap. eauto. }
  split; [apply Hiff|]. intros (c & _ & _ & _ & Hne)%Hiff. done.
Qed.

(** X2. After construction the graph is symmetric: [x] is a neighbor of [v]
    exactly when [v] is a neighbor of [x]. *)
Theorem neighbors_symmetric (vs : list string) (ds : gmap string (list Z))
    (cs : list constraint) (v x : string) :
  x ∈ nview (neighbors (__init__ vs ds cs)) v ↔
  v ∈ nview (neighbors (__init__ vs ds cs)) x.
Proof.
  simpl. rewrite !create_constraint_graph_nview.
  unfold nview. rewrite !lookup_empty. simpl. rewrite !list_elem_of_join.
  split; intros (l & Hin & Hl); apply list_elem_of_fmap in Hl as (c & -> & Hc);
    apply elem_of_shared in Hin as (? & ? & ?);
    (eexists; split; [|apply list_elem_of_fmap; eauto]);
    apply elem_of_shared; done.
Qed.

Lemma graph_of_tuple_lookup (tuple l : list string) g v :
  is_Some (foldl (λ g var, extend g var (filter (λ w, w ≠ var) tuple)) g l !! v) ↔
  is_Some (g !! v) ∨ v ∈ l.
Proof.
  revert g. induction l as [|var l IH]; intros g; simpl.
  - split; [by left|]. intros [?|Hin]; [done|]. by apply elem_of_nil in Hin.
  - rewrite IH. unfold extend. rewrite elem_of_cons. split.
    + intros [Hs|?]; [|by right; right].
      destruct (decide (var = v)) as [->|Hne]; [by right; left|].
      rewrite lookup_insert_ne in Hs by done. by left.
    + intros [Hs|[->|?]]; [| |by right].
      * left. destruct (decide (var = v)) as [->|Hne].
        -- rewrite lookup_insert_eq. eauto.
        -- by rewrite lookup_insert_ne.
      * left. rewrite lookup_insert_eq. eauto.
Qed.

(** X3. After construction the keys of [neighbors] are the names that occur
    in some constraint tuple, also those of a tuple of one name, whose list
    is empty. *)
Theorem neighbors_keys_after_init (vs : list string) (ds : gmap string (list Z))
    (cs : list constraint) (v : string) :
  is_Some (neighbors (__init__ vs ds cs) !! v) ↔ ∃ c, c ∈ cs ∧ v ∈ c_vars c.
Proof.
  simpl. unfold _create_constraint_graph.
  assert (∀ g : gmap string (list string),
            is_Some (foldl (λ g c,
                       foldl (λ g var, extend g var (filter (λ w, w ≠ var) (c_vars c)))
                             g (c_vars c)) g cs !! v) ↔
            is_Some (g !! v) ∨ ∃ c, c ∈ cs ∧ v ∈ c_vars c) as Hgen.
  { induction cs as [|c cs IH]; intros g; simpl.
    - split; [by left|]. intros [?|(c & Hc & _)]; [done|]. by apply elem_of_nil in Hc.
    - rewrite IH, graph_of_tuple_lookup. split.
      + intros [[?|?]|(c' & ? & ?)]; [by left| |].
        * right. exists c. split; [by left|done].
        * right. exists c'. split; [by right|done].
      + intros [?|(c' & [->|?]%elem_of_cons & ?)]; [by left; left|by left; right|].
        right. eauto. }
  rewrite Hgen, lookup_empty. split; [|by right].
  intros [[? ?]|?]; done.
Qed.

Lemma filter_other_absent (v : string) (l : list string) :
  v ∉ l → filter (λ w, w ≠ v) l = l.
Proof.
  induction l as [|x l IH]; intros Hv; [done|].
  rewrite filter_cons, decide_True.
  - f_equal. apply IH. intros Hin. apply Hv. by right.
  - intros ->. apply Hv. by left.
Qed.

Lemma length_filter_other (v : string) (l : list string) :
  NoDup l → v ∈ l → length (filter (λ w, w ≠ v) l) = length l - 1.
Proof.
  induction 1 as [|x l Hx Hnd IH]; intros Hv; [by apply elem_of_nil in Hv|].
  rewrite filter_cons. destruct (decide (x ≠ v)) as [Hne|Heq%dec_stable]; simpl.
  - apply elem_of_cons in Hv as [->|Hv]; [done|]. rewrite IH by done.
    destruct l; [by apply elem_of_nil in Hv|simpl; lia].
  - subst x. rewrite Nat.sub_0_r. by rewrite filter_other_absent.
Qed.

Lemma length_shared (v : string) (c : constraint) :
  NoDup (c_vars c) →
  length (shared v c) = if decide (v ∈ c_vars c) then length (c_vars c) - 1 else 0.
Proof.
  intros Hnd. unfold shared.
  assert (∀ l : list string, NoDup l →
            length (mjoin ((λ var, if decide (var = v)
                                   then filter (λ w, w ≠ var) (c_vars c) else [])
                             <$> l))
            = if decide (v ∈ l) then length (filter (λ w, w ≠ v) (c_vars c)) else 0)
    as Hgen.
  { induction 1 as [|x l Hx Hndl IH]; csimpl; [done|].
    rewrite length_app, IH. destruct (decide (x = v)) as [->|Hne].
    - rewrite (decide_False (P := v ∈ l)) by done.
      rewrite decide_True by (by left). lia.
    - simpl. destruct (decide (v ∈ l)) as [Hin|Hout].
      + by rewrite decide_True by (by right).
      + rewrite decide_False; [done|]. intros [?|?]%elem_of_cons; congruence. }
  rewrite Hgen by done. destruct (decide (v ∈ c_vars c)); [|done].
  by apply length_filter_other.
Qed.

(** X4. When no tuple names a variable twice, the length of [neighbors[v]]
    after construction, which is the key of the degree heuristic, is the sum
    over the constraints on [v] of the number of other variables in the
    tuple: a neighbor shared through two constraints counts twice. *)
Theorem degree_after_init (vs : list string) (ds : gmap string (list Z))
    (cs : list constraint) (v : string) :
  (∀ c, c ∈ cs → NoDup (c_vars c)) →
  degree (neighbors (__init__ vs ds cs)) v =
  sum_list ((λ c, if decide (v ∈ c_vars c) then length (c_vars c) - 1 else 0) <$> cs).
Proof.
  intros Hnd. unfold degree. fold (nview (neighbors (__init__ vs ds cs)) v).
  simpl. rewrite create_constraint_graph_nview.
  unfold nview. rewrite lookup_empty. simpl.
  rewrite length_join, <- list_fmap_compose. f_equal.
  apply list_fmap_ext. intros i c Hc. simpl. apply length_shared, Hnd.
  by eapply list_elem_of_lookup_2.
Qed.

Lemma example_tuples_distinct : ∀ c, c ∈ example_constraints → NoDup (c_vars c).
Proof.
  intros c Hc. unfold example_constraints in Hc.
  each_constraint Hc; simpl;
    repeat (apply NoDup_cons; split; [unlisted|]); apply NoDup_nil_2.
Qed.

Lemma degree_after_init_witness :
  degree (neighbors csp) "B" =
  sum_list ((λ c, if decide ("B"%string ∈ c_vars c) then length (c_vars c) - 1 else 0)
              <$> example_constraints).
Proof.
  exact (degree_after_init ["A"; "B"; "C"; "D"; "E"]%string example_domains
           example_constraints "B" example_tuples_distinct).
Defined.

(** ** Further properties: what [solve()] returns *)

Lemma size_list_to_set_NoDup (l : list string) :
  size (list_to_set l : gset string) = length l → NoDup l.
Proof.
  induction l as [|x l IH]; [constructor|].
  rewrite list_to_set_cons. cbn [length]. intros Hsize.
  pose proof (size_list_to_set_le l) as Hle.
  destruct (decide (x ∈ l)) as [Hin|Hout].
  - exfalso. assert ({[x]} ∪ list_to_set l = (list_to_set l : gset string)) as Heq.
    { apply set_eq. intros y. rewrite elem_of_union, elem_of_singleton.
      rewrite elem_of_list_to_set. split; [intros [->|?]; done|by right]. }
    rewrite Heq in Hsize. lia.
  - constructor; [done|]. apply IH.
    rewrite size_union in Hsize.
    + rewrite size_singleton in Hsize. lia.
    + intros y Hy1%elem_of_singleton Hy2%elem_of_list_to_set. by subst.
Qed.

Lemma complete_distinct (self : CSP) (a : gmap string Z) :
  (∀ v, is_Some (a !! v) → v ∈ variables self) →
  size a = length (variables self) → NoDup (variables self).
Proof.
  intros Hdecl Hsize. apply size_list_to_set_NoDup.
  pose proof (size_list_to_set_le (variables self)) as Hle.
  assert (dom a ⊆ list_to_set (variables self)) as Hsub.
  { intros v Hv. apply elem_of_list_to_set, Hdecl. by apply elem_of_dom. }
  apply subseteq_size in Hsub. rewrite size_dom in Hsub. lia.
Qed.

(** X5. A dict returned by [solve()] binds exactly the listed variables and
    binds each to a value of its own domain, whatever the instance is. *)
Theorem solve_binds_domain_values (self : CSP) (S : gmap string Z) :
  (solve self).1 = Ok (Some S) →
  (∀ v, is_Some (S !! v) ↔ v ∈ variables self) ∧
  (∀ v x, S !! v = Some x → ∃ d, domains self !! v = Some d ∧ x ∈ d).
Proof.
  pose proof (run_solve_spec self) as Hspec. unfold spec in Hspec.
  unfold solve, run_solve.
  destruct (_recursive_backtracking _ _ _) as [[[]|e|] s']; simpl; try done.
  intros [= <-]. destruct Hspec as [_ (_ & (_ & Hvars & Hvals) & Hsize)].
  split; [|done]. intros v. split; [apply Hvars|].
  by apply complete_binds_all.
Qed.

Lemma solve_binds_domain_values_witness :
  (∀ v, is_Some (example_solution !! v) ↔ v ∈ variables csp) ∧
  (∀ v x, example_solution !! v = Some x → ∃ d, domains csp !! v = Some d ∧ x ∈ d).
Proof. exact (solve_binds_domain_values csp example_solution csp_solve). Defined.

(** X6. When the variable list names a variable twice, [solve()] never
    returns a dict: the dict can never have as many entries as the list has
    names. *)
Theorem solve_duplicate_variables (self : CSP) (S : gmap string Z) :
  ¬ NoDup (variables self) → (solve self).1 ≠ Ok (Some S).
Proof.
  intros Hdup. pose proof (run_solve_spec self) as Hspec. unfold spec in Hspec.
  unfold solve, run_solve.
  destruct (_recursive_backtracking _ _ _) as [[[]|e|] s']; simpl; try done.
  intros _. destruct Hspec as [_ (_ & (_ & Hvars & _) & Hsize)].
  apply Hdup. by eapply complete_distinct.
Qed.

Lemma csp_duplicate_not_distinct : ¬ NoDup (variables csp_duplicate).
Proof. simpl. intros [Hno _]%NoDup_cons. apply Hno. by left. Qed.

Lemma solve_duplicate_variables_witness :
  (solve csp_duplicate).1 ≠ Ok (Some {["A"%string := 1%Z]}).
Proof.
  exact (solve_duplicate_variables csp_duplicate {["A"%string := 1%Z]}
           csp_duplicate_not_distinct).
Defined.

(** With one value for the variable named twice, the search binds it and
    then finds nothing left to select. *)
Example csp_duplicate_raises : (solve csp_duplicate).1 = Raise ValueError.
Proof. vm_compute. reflexivity. Qed.

(** ** Further properties: the search is exhaustive *)

Section Exhaustive.
Context (self : CSP).

Lemma get_values_weaken (a T : gmap string Z) (l : list string) :
  a ⊆ T → None ∉ get_values a l → get_values T l = get_values a l.
Proof.
  intros Hsub Hb. unfold get_values. apply list_fmap_ext. intros i v Hv.
  destruct (a !! v) as [x|] eqn:Hx.
  - by eapply lookup_weaken.
  - exfalso. apply Hb. apply unbound_in_values. exists v. split; [|done].
    by eapply list_elem_of_lookup_2.
Qed.

(** A constraint that is false on an assignment is false on all its
    extensions. *)
Lemma violated_in_extension (a T : gmap string Z) c :
  a ⊆ T → c ∈ constraints self → fully_bound a c → eval a c = Some false →
  violates self T.
Proof.
  intros Hsub Hc Hb Hfalse.
  assert (get_values T (c_vars c) = get_values a (c_vars c)) as Heq
    by (by apply get_values_weaken).
  exists c. unfold fully_bound, eval in *. by rewrite Heq.
Qed.

Lemma spec_try_values_exhaustive (rec : M result) variable d a0 :
  good self a0 → a0 !! variable = None → variable ∈ variables self →
  domains self !! variable = Some d →
  (∀ s1 value, view_ok self s1 → good self (<[variable := value]> a0) →
               assignment s1 = <[variable := value]> a0 →
               spec self s1 rec (exhaustive self (<[variable := value]> a0))
                 (blame self)) →
  ∀ values s, view_ok self s → assignment s = a0 → (∀ x, x ∈ values → x ∈ d) →
  spec self s (try_values self rec variable values)
    (λ r s', returns self a0 r s' ∧
             (r = RNone →
              ∀ T x, a0 ⊆ T → candidate self T →
                     x ∈ values → T !! variable = Some x → violates self T))
    (blame self).
Proof.
  intros Hgood Hfree Hvar Hd Hrec.
  induction values as [|value rest IH]; intros s Hview Ha Hsub; simpl.
  { apply spec_ret. split; [done|]. intros _ T x _ _ Hx. by apply elem_of_nil in Hx. }
  assert (∀ x, x ∈ rest → x ∈ d) as Hsub' by (intros x Hx; apply Hsub; by right).
  assert (∀ T, a0 ⊆ T → T !! variable = Some value → <[variable := value]> a0 ⊆ T)
    as Hext.
  { intros T HT Hl. by apply insert_subseteq_l. }
  apply spec_bind.
  eapply spec_post; [apply spec_is_assignment_valid; congruence|].
  simpl. intros ok s' _ [-> Hcheck]. rewrite Ha in Hcheck.
  destruct ok.
  - assert (good self (<[variable := value]> a0)) as Hgood'.
    { eapply good_insert; eauto. apply Hsub. by left. }
    apply spec_bind, spec_setitem. apply spec_bind.
    eapply spec_post; [apply (Hrec _ value); [done|done|simpl; congruence]|].
    simpl. intros r s1 Hev [Hret Hnone]. destruct r; simpl in Hret.
    + destruct Hret as (Hsubmap & Hgood1 & Hsize).
      apply spec_bind, spec_truthy.
      rewrite bool_decide_eq_false_2.
      * simpl. apply spec_ret. split; [|done]. simpl. split; [|done].
        etrans; [|exact Hsubmap]. by apply insert_subseteq.
      * intros Hempty. rewrite Hempty in Hsubmap.
        pose proof (lookup_weaken _ _ variable value
                      (lookup_insert_eq a0 variable value) Hsubmap) as Hl.
        by rewrite lookup_empty in Hl.
    + apply spec_bind, spec_truthy. apply spec_bind, spec_delitem.
      { rewrite Hret, lookup_insert_eq. eauto. }
      eapply spec_post; [apply IH; [|simpl|done]|].
      * intros v. simpl. destruct Hev as [Hg _]. simpl in Hg.
        rewrite (grows_nview _ _ v Hg). apply Hview.
      * rewrite Hret, delete_insert_eq. by apply delete_id.
      * simpl. intros r s2 _ [Hret2 Hrest]. split; [done|].
        intros -> T x HT Hcand [->|Hx]%elem_of_cons Hl.
        -- by apply (Hnone eq_refl T (Hext T HT Hl)).
        -- by apply (Hrest eq_refl T x).
  - eapply spec_post; [by apply IH|].
    simpl. intros r s2 _ [Hret2 Hrest]. split; [done|].
    intros -> T x HT Hcand [->|Hx]%elem_of_cons Hl.
    + apply check_constraints_false in Hcheck as (c & Hc & _ & Hb & Hfalse).
      by apply (violated_in_extension _ T c (Hext T HT Hl) Hc Hb Hfalse).
    + by apply (Hrest eq_refl T x).
Qed.

Lemma spec_backtrack_exhaustive (rec : M result) s :
  view_ok self s → good self (assignment s) →
  (∀ s1, view_ok self s1 → good self (assignment s1) →
         length (unassigned self (assignment s1))
           < length (unassigned self (assignment s)) →
         spec self s1 rec (exhaustive self (assignment s1)) (blame self)) →
  spec self s (backtrack self rec) (exhaustive self (assignment s)) (blame self).
Proof.
  intros Hview Hgood Hrec. unfold backtrack.
  apply spec_bind, spec_get_assignment. simpl.
  case_bool_decide as Hsize.
  { apply spec_ret. split; [simpl; done|done]. }
  apply spec_bind.
  eapply spec_conseq; [apply spec_select_next_variable| |].
  - simpl. intros variable s1 Hev1 (Ha1 & Hvar & Hfree).
    assert (view_ok self s1) as Hview1 by (by eapply view_ok_evolves).
    apply spec_bind.
    eapply spec_post; [apply spec_order_values; [done|congruence|done]|].
    simpl. intros values s2 Hev2 (Ha2 & Hview2 & d & Hd & Hperm).
    eapply spec_post.
    + eapply (spec_try_values_exhaustive _ variable d (assignment s));
        eauto; [|congruence|].
      * intros s3 value Hview3 Hgood3 Ha3.
        rewrite <- Ha3. apply Hrec; [done|by rewrite Ha3|].
        rewrite Ha3. by apply unassigned_shrinks.
      * intros x Hx. by rewrite <- Hperm.
    + simpl. intros r s3 _ [Hret Hnone]. split; [done|].
      intros -> T HT Hcand.
      destruct (Hcand variable Hvar) as (d' & x & Hd' & Hx & Hl).
      assert (d' = d) as -> by congruence.
      apply (Hnone eq_refl T x HT Hcand); [by rewrite Hperm|done].
  - simpl. intros e [[-> Hnil]|(k & -> & Hk & Hnone)].
    + pose proof (unassigned_nil _ _ Hnil) as Hall. split.
      * intros Hnd. apply Hsize. by apply all_bound_size; [apply Hgood| |].
      * intros v [x Hx]%Hall%elem_of_dom.
        destruct Hgood as (_ & _ & Hdom). destruct (Hdom v x Hx) as (d & ? & ?).
        eauto.
    + split; [done|by left].
Qed.

Lemma spec_recursive_backtracking_exhaustive fuel s :
  view_ok self s → good self (assignment s) →
  length (unassigned self (assignment s)) < fuel →
  spec self s (_recursive_backtracking self fuel)
    (exhaustive self (assignment s)) (blame self).
Proof.
  revert s. induction fuel as [|fuel IH]; intros s Hview Hgood Hfuel; [lia|].
  simpl. apply spec_bind, spec_log_entry; [split; apply Hgood|].
  apply (spec_backtrack_exhaustive _ (Store _ _ _)); [done|done|].
  simpl. intros s1 Hview1 Hgood1 Hlt. apply IH; [done|done|lia].
Qed.

Lemma run_solve_exhaustive :
  spec self (Store (neighbors self) ∅ [])
    (_recursive_backtracking self (S (length (variables self))))
    (exhaustive self ∅) (blame self).
Proof.
  apply (spec_recursive_backtracking_exhaustive _ (Store (neighbors self) ∅ [])).
  - done.
  - apply good_empty.
  - simpl. unfold unassigned.
    pose proof (length_filter (λ v, v ∉ dom (∅ : gmap string Z)) (variables self)).
    lia.
Qed.

End Exhaustive.

(** X7. When [solve()] returns [None], every assignment that gives each
    listed variable a value of its domain makes the predicate of some
    constraint false: the search has tried them all. *)
Theorem solve_none_no_solution (self : CSP) (T : gmap string Z) :
  (solve self).1 = Ok None → candidate self T → violates self T.
Proof.
  pose proof (run_solve_exhaustive self) as Hspec. unfold spec in Hspec.
  unfold solve, run_solve.
  destruct (_recursive_backtracking _ _ _) as [[[]|e|] s']; simpl; try done.
  intros _ Hcand. destruct Hspec as [_ [_ Hnone]].
  apply (Hnone eq_refl T); [apply map_empty_subseteq|done].
Qed.

Lemma csp_unsat_solve : (solve csp_unsat).1 = Ok None.
Proof. vm_compute. reflexivity. Qed.

Lemma csp_unsat_candidate :
  candidate csp_unsat (list_to_map [("A", 1); ("B", 1)]%string%Z).
Proof.
  intros v Hv. simpl in Hv.
  each_constraint Hv; exists [1%Z], 1%Z; (split; [reflexivity|]);
    (split; [listed|reflexivity]).
Qed.

Lemma solve_none_no_solution_witness :
  violates csp_unsat (list_to_map [("A", 1); ("B", 1)]%string%Z).
Proof.
  exact (solve_none_no_solution csp_unsat _ csp_unsat_solve csp_unsat_candidate).
Defined.

(** ** Further properties: [solve()] decides, and why it can raise *)

Lemma well_formed_no_blame vs ds cs e :
  well_formed (__init__ vs ds cs) → blame (__init__ vs ds cs) e → False.
Proof.
  intros (Hnd & Hdom & Hdecl & _ & Htot) Hblame. destruct e as [k| |]; simpl in Hblame.
  - destruct Hblame as [Hnone [Hk|[w Hk]]].
    + destruct (Hdom k Hk) as [d Hd]. simpl in Hd. congruence.
    + apply create_constraint_graph_elem in Hk as [Hk|(c & Hc & Hk & _)].
      { unfold nview in Hk. rewrite lookup_empty in Hk. by apply elem_of_nil in Hk. }
      destruct (Hdom k (Hdecl c k Hc Hk)) as [d Hd]. simpl in Hd. congruence.
  - by destruct Hblame as [Hdup _].
  - destruct Hblame as (c & vals & Hc & Hlen & Hnone).
    destruct (Htot c vals Hc Hlen) as [b Hb]. congruence.
Qed.

(** X8. On a well-formed instance built by [__init__], [solve()] decides the
    problem: it returns a dict that gives every variable a value of its
    domain and makes every constraint true, or it returns [None] and every
    such assignment makes some constraint false.  It does not raise. *)
Theorem solve_decides (vs : list string) (ds : gmap string (list Z))
    (cs : list constraint) :
  well_formed (__init__ vs ds cs) →
  (∃ S, (solve (__init__ vs ds cs)).1 = Ok (Some S) ∧
        candidate (__init__ vs ds cs) S ∧ satisfies (__init__ vs ds cs) S) ∨
  ((solve (__init__ vs ds cs)).1 = Ok None ∧
   ∀ T, candidate (__init__ vs ds cs) T → violates (__init__ vs ds cs) T).
Proof.
  intros Hwf. pose proof (run_solve_exhaustive (__init__ vs ds cs)) as Hspec.
  unfold spec in Hspec. unfold solve, run_solve.
  destruct (_recursive_backtracking _ _ _) as [[[]|e|] s']; simpl; [| | |done].
  - left. destruct Hspec as [_ [(_ & Hgood & Hsize) _]].
    exists (assignment s'). split; [done|]. split.
    + intros v Hv. destruct Hgood as (_ & Hvars & Hvals).
      destruct (complete_binds_all _ _ Hvars Hsize v Hv) as [x Hx].
      destruct (Hvals v x Hx) as (d & Hd & Hin). eauto.
    + destruct Hwf as (_ & _ & Hdecl & Hne & _). by apply complete_satisfies.
  - right. destruct Hspec as [_ [_ Hnone]]. split; [done|].
    intros T HT. apply (Hnone eq_refl T); [apply map_empty_subseteq|done].
  - exfalso. destruct Hspec as [_ Hblame]. by eapply well_formed_no_blame.
Qed.

Lemma csp_well_formed : well_formed csp.
Proof.
  split; [|split; [|split; [|split]]].
  - unfold distinct_variables. simpl.
    repeat (apply NoDup_cons; split; [unlisted|]). apply NoDup_nil_2.
  - intros v Hv. simpl in Hv. each_constraint Hv; vm_compute; eauto.
  - exact csp_scopes_declared.
  - exact csp_scopes_nonempty.
  - exact csp_predicates_total.
Qed.

Lemma solve_decides_witness :
  (∃ S, (solve csp).1 = Ok (Some S) ∧ candidate csp S ∧ satisfies csp S) ∨
  ((solve csp).1 = Ok None ∧ ∀ T, candidate csp T → violates csp T).
Proof.
  exact (solve_decides ["A"; "B"; "C"; "D"; "E"]%string example_domains
           example_constraints csp_well_formed).
Defined.

(** X9. An exception of [solve()] has one of three causes: a [KeyError] names
    a listed variable or a neighbor that has no domain; a [ValueError] means
    that the variable list names a variable twice (and every variable has a
    non-empty domain); otherwise a predicate raised on a tuple of its
    arity. *)
Theorem solve_exception_causes (self : CSP) (e : exn) :
  (solve self).1 = Raise e →
  match e with
  | KeyError k =>
      domains self !! k = None ∧
      (k ∈ variables self ∨ ∃ v, k ∈ nview (neighbors self) v)
  | ValueError =>
      ¬ NoDup (variables self) ∧
      ∀ v, v ∈ variables self → ∃ d x, domains self !! v = Some d ∧ x ∈ d
  | CallRaised =>
      ∃ c vals, c ∈ constraints self ∧ length vals = length (c_vars c) ∧
                condition c vals = None
  end.
Proof.
  pose proof (run_solve_spec self) as Hspec. unfold spec in Hspec.
  unfold solve, run_solve.
  destruct (_recursive_backtracking _ _ _) as [[[]|e'|] s']; simpl; try done.
  intros [= <-]. apply Hspec.
Qed.

Lemma solve_exception_causes_witness :
  domains csp_missing_domain !! "B"%string = None ∧
  ("B"%string ∈ variables csp_missing_domain ∨
   ∃ v, "B"%string ∈ nview (neighbors csp_missing_domain) v).
Proof.
  exact (solve_exception_causes csp_missing_domain (KeyError "B")
           csp_missing_domain_raises).
Defined.

(** ** Further properties: calling [solve()] again *)

Section Agree.

Lemma same_view_refl s : same_view s s.
Proof. by split. Qed.

Lemma agree_ret {A} (a : A) : agree (ret a) (ret a).
Proof. intros s1 s2 Hs. by split. Qed.

Lemma agree_raise {A} e : agree (raise (A := A) e) (raise e).
Proof. intros s1 s2 Hs. by split. Qed.

Lemma agree_bind {A B} (m1 m2 : M A) (k1 k2 : A → M B) :
  agree m1 m2 → (∀ a, agree (k1 a) (k2 a)) → agree (bind m1 k1) (bind m2 k2).
Proof.
  intros Hm Hk s1 s2 Hs. unfold bind. destruct (Hm s1 s2 Hs) as [Ho Hs'].
  destruct (m1 s1) as [o1 s1'], (m2 s2) as [o2 s2']; simpl in *. subst o2.
  destruct o1 as [a|e|]; [by apply Hk|by split..].
Qed.

Lemma agree_map_m {A B} (f1 f2 : A → M B) l :
  (∀ x, agree (f1 x) (f2 x)) → agree (map_m f1 l) (map_m f2 l).
Proof.
  intros Hf. induction l as [|x l IH]; simpl; [apply agree_ret|].
  apply agree_bind; [apply Hf|]. intros y.
  apply agree_bind; [apply IH|]. intros ys. apply agree_ret.
Qed.

Lemma agree_fold_m {A B} (f1 f2 : B → A → M B) l b :
  (∀ b x, agree (f1 b x) (f2 b x)) → agree (fold_m f1 b l) (fold_m f2 b l).
Proof.
  intros Hf. revert b. induction l as [|x l IH]; intros b; simpl; [apply agree_ret|].
  apply agree_bind; [apply Hf|]. apply IH.
Qed.

(** A continuation that is given the assignment. *)
Lemma agree_get_assignment {B} (k1 k2 : gmap string Z → M B) :
  (∀ a, agree (k1 a) (k2 a)) →
  agree (bind get_assignment k1) (bind get_assignment k2).
Proof.
  intros Hk s1 s2 Hs. unfold bind, get_assignment. simpl.
  destruct Hs as [Ha Hv]. rewrite Ha. apply Hk. by split.
Qed.

Lemma agree_setitem k v : agree (setitem k v) (setitem k v).
Proof.
  intros s1 s2 [Ha Hv]. unfold setitem. simpl. split; [done|].
  split; simpl; [by rewrite Ha|done].
Qed.

Lemma agree_delitem k : agree (delitem k) (delitem k).
Proof.
  intros s1 s2 [Ha Hv]. unfold delitem. rewrite Ha.
  destruct (assignment s2 !! k); simpl; (split; [done|]); by split.
Qed.

Lemma agree_neighbors_getitem v : agree (neighbors_getitem v) (neighbors_getitem v).
Proof.
  intros s1 s2 [Ha Hv]. unfold neighbors_getitem.
  pose proof (Hv v) as Hvv. unfold nview in Hvv.
  assert (∀ g : gmap string (list string), g !! v = None →
            ∀ w, nview (<[v := []]> g) w = nview g w) as Hins.
  { intros g Hg w. unfold nview. destruct (decide (v = w)) as [<-|Hne].
    - by rewrite lookup_insert_eq, Hg.
    - by rewrite lookup_insert_ne. }
  destruct (self_neighbors s1 !! v) as [l1|] eqn:H1,
           (self_neighbors s2 !! v) as [l2|] eqn:H2; simpl in *; subst.
  - by split.
  - split; [done|]. split; [done|]. simpl. intros w. by rewrite Hins.
  - split; [done|]. split; [done|]. simpl. intros w. by rewrite Hins.
  - split; [done|]. split; [done|]. simpl. intros w. by rewrite !Hins.
Qed.

Lemma agree_read {A} (f : gmap string Z → outcome A) : agree (read f) (read f).
Proof. intros s1 s2 [Ha Hv]. unfold read. simpl. by rewrite Ha. Qed.

Lemma agree_log_entry : agree log_entry log_entry.
Proof. intros s1 s2 [Ha Hv]. unfold log_entry. simpl. by split. Qed.

Context (self1 self2 : CSP).
Hypothesis same_variables : variables self1 = variables self2.
Hypothesis same_domains : domains self1 = domains self2.
Hypothesis same_constraints : constraints self1 = constraints self2.

Lemma agree_domains_getitem v :
  agree (domains_getitem self1 v) (domains_getitem self2 v).
Proof.
  unfold domains_getitem. rewrite same_domains.
  destruct (domains self2 !! v); [apply agree_ret|apply agree_raise].
Qed.

Lemma agree_is_assignment_valid variable value :
  agree (_is_assignment_valid self1 variable value)
        (_is_assignment_valid self2 variable value).
Proof.
  unfold _is_assignment_valid. rewrite same_constraints.
  apply agree_bind; [apply agree_setitem|]. intros _.
  apply agree_bind; [apply agree_read|]. intros ok.
  apply agree_bind; [apply agree_delitem|]. intros _. apply agree_ret.
Qed.

Lemma agree_select_next_variable :
  agree (_select_next_variable self1) (_select_next_variable self2).
Proof.
  unfold _select_next_variable. rewrite same_variables.
  apply agree_get_assignment. intros a.
  apply agree_bind.
  { apply agree_map_m. intros v.
    apply agree_bind; [apply agree_domains_getitem|]. intros d. apply agree_ret. }
  intros sizes. apply agree_bind.
  { apply agree_map_m. intros v.
    apply agree_bind; [apply agree_neighbors_getitem|]. intros n. apply agree_ret. }
  intros degrees. destruct (max_by_key _); [apply agree_ret|apply agree_raise].
Qed.

Lemma agree_count_conflicts variable value :
  agree (count_conflicts self1 variable value) (count_conflicts self2 variable value).
Proof.
  unfold count_conflicts.
  apply agree_bind; [apply agree_setitem|]. intros _.
  apply agree_bind; [apply agree_neighbors_getitem|]. intros nbs.
  apply agree_bind.
  { apply agree_fold_m. intros n neighbor. apply agree_get_assignment. intros a.
    case_bool_decide; [apply agree_ret|].
    apply agree_bind; [apply agree_domains_getitem|]. intros d.
    apply agree_bind; [|intros oks; apply agree_ret].
    apply agree_map_m. intros val. apply agree_is_assignment_valid. }
  intros n. apply agree_bind; [apply agree_delitem|]. intros _. apply agree_ret.
Qed.

Lemma agree_order_values variable :
  agree (_order_values_by_least_conflicts self1 variable)
        (_order_values_by_least_conflicts self2 variable).
Proof.
  unfold _order_values_by_least_conflicts.
  apply agree_bind; [apply agree_domains_getitem|]. intros d.
  apply agree_bind; [|intros keys; apply agree_ret].
  apply agree_map_m. intros value. apply agree_count_conflicts.
Qed.

Lemma agree_truthy r : agree (truthy r) (truthy r).
Proof.
  destruct r; simpl; [|apply agree_ret].
  apply agree_get_assignment. intros a. apply agree_ret.
Qed.

Lemma agree_try_values (rec1 rec2 : M result) variable values :
  agree rec1 rec2 →
  agree (try_values self1 rec1 variable values) (try_values self2 rec2 variable values).
Proof.
  intros Hrec. induction values as [|value rest IH]; simpl; [apply agree_ret|].
  apply agree_bind; [apply agree_is_assignment_valid|]. intros [|]; [|exact IH].
  apply agree_bind; [apply agree_setitem|]. intros _.
  apply agree_bind; [exact Hrec|]. intros r.
  apply agree_bind; [apply agree_truthy|]. intros [|]; [apply agree_ret|].
  apply agree_bind; [apply agree_delitem|]. intros _. exact IH.
Qed.

Lemma agree_backtrack (rec1 rec2 : M result) :
  agree rec1 rec2 → agree (backtrack self1 rec1) (backtrack self2 rec2).
Proof.
  intros Hrec. unfold backtrack. rewrite same_variables.
  apply agree_get_assignment. intros a.
  case_bool_decide; [apply agree_ret|].
  apply agree_bind; [apply agree_select_next_variable|]. intros variable.
  apply agree_bind; [apply agree_order_values|]. intros values.
  by apply agree_try_values.
Qed.

(** Two objects with the same variables, domains and constraints, run from
    stores that read alike, search alike. *)
Lemma agree_recursive_backtracking fuel :
  agree (_recursive_backtracking self1 fuel) (_recursive_backtracking self2 fuel).
Proof.
  induction fuel as [|fuel IH]; simpl.
  - intros s1 s2 Hs. by split.
  - apply agree_bind; [apply agree_log_entry|]. intros _. by apply agree_backtrack.
Qed.

End Agree.

(** What [solve()] returns depends on the object only through its
    variables, domains and constraints and through the neighbor lists as
    lookups read them. *)
Lemma solve_same_view (self1 self2 : CSP) :
  variables self1 = variables self2 → domains self1 = domains self2 →
  constraints self1 = constraints self2 →
  (∀ v, nview (neighbors self1) v = nview (neighbors self2) v) →
  (solve self1).1 = (solve self2).1.
Proof.
  intros Hv Hd Hc Hn. unfold solve, run_solve. rewrite Hv.
  destruct (agree_recursive_backtracking self1 self2 Hv Hd Hc
              (S (length (variables self2)))
              (Store (neighbors self1) ∅ []) (Store (neighbors self2) ∅ []))
    as [Ho [Ha _]]; [by split|].
  destruct (_recursive_backtracking self1 _ _) as [o1 s1],
           (_recursive_backtracking self2 _ _) as [o2 s2]; simpl in *.
  subst o2. by rewrite Ha.
Qed.

(** X10. Calling [solve()] a second time on the same object gives the result
    of the first call: the keys that the first call added to [neighbors] do
    not change what any operation reads. *)
Theorem solve_twice (self : CSP) : (solve (solve self).2).1 = (solve self).1.
Proof.
  pose proof (run_solve_spec self) as Hspec. unfold spec in Hspec.
  apply solve_same_view; unfold solve, run_solve in *;
    destruct (_recursive_backtracking self _ _) as [o s']; simpl; try done.
  intros v. apply grows_nview.
  destruct o; [| |done]; by destruct Hspec as [[Hg _] _].
Qed.

(** ** Further properties: the order of the values *)

Section ValueOrder.
Context (self : CSP).
Hypothesis total : predicates_total self.

Lemma is_assignment_valid_returns neighbor val s :
  assignment s !! neighbor = None →
  ∃ ok, _is_assignment_valid self neighbor val s = (Ok ok, s) ∧
        check_constraints neighbor (constraints self)
          (<[neighbor := val]> (assignment s)) = Ok ok.
Proof.
  intros Hfree. rewrite is_assignment_valid_unbound by done.
  destruct (check_constraints_total neighbor (constraints self)
              (<[neighbor := val]> (assignment s))) as (ok & Hrun & _).
  { intros c vals. apply total. }
  exists ok. by rewrite Hrun.
Qed.

Lemma map_m_is_assignment_valid neighbor d s :
  assignment s !! neighbor = None →
  ∃ oks, map_m (_is_assignment_valid self neighbor) d s = (Ok oks, s) ∧
         length (filter (λ ok, ok = false) oks) =
         length (filter (λ val, is_rejected
                                  (check_constraints neighbor (constraints self)
                                     (<[neighbor := val]> (assignment s)))) d).
Proof.
  intros Hfree. induction d as [|val d IH]; simpl.
  - by exists [].
  - destruct (is_assignment_valid_returns neighbor val s Hfree) as (ok & Hrun & Hcheck).
    destruct IH as (oks & Hruns & Hlen). exists (ok :: oks).
    erewrite bind_ok; [|exact Hrun]. erewrite bind_ok; [|exact Hruns].
    split; [done|]. rewrite !filter_cons, Hcheck.
    destruct ok; simpl; by rewrite Hlen.
Qed.

Lemma count_conflicts_step a1 neighbor n s :
  (a1 !! neighbor = None → is_Some (domains self !! neighbor)) →
  assignment s = a1 →
  (a <- get_assignment ;;
   if bool_decide (neighbor ∈ dom a) then ret n
   else
     d <- domains_getitem self neighbor ;;
     oks <- map_m (_is_assignment_valid self neighbor) d ;;
     ret (n + length (filter (λ ok, ok = false) oks))%nat) s
  = (Ok (n + (if decide (neighbor ∈ dom a1) then 0 else rejected self a1 neighbor)), s).
Proof.
  intros Hdom Ha. erewrite bind_ok; [|reflexivity]. rewrite Ha.
  destruct (decide (neighbor ∈ dom a1)) as [Hin|Hout].
  - rewrite bool_decide_eq_true_2 by done. unfold ret. do 2 f_equal. lia.
  - rewrite bool_decide_eq_false_2 by done.
    apply not_elem_of_dom in Hout. destruct (Hdom Hout) as [d Hd].
    erewrite bind_ok; [|unfold domains_getitem; rewrite Hd; reflexivity].
    destruct (map_m_is_assignment_valid neighbor d s) as (oks & Hruns & Hlen);
      [congruence|].
    erewrite bind_ok; [|exact Hruns]. unfold ret. do 2 f_equal.
    rewrite Hlen, Ha. unfold rejected. by rewrite Hd.
Qed.

(** The loop of [count_conflicts], from the accumulator [n]. *)
Lemma count_conflicts_loop a1 nbs :
  (∀ neighbor, neighbor ∈ nbs → a1 !! neighbor = None →
               is_Some (domains self !! neighbor)) →
  ∀ n s, assignment s = a1 →
  fold_m (λ conflict_count neighbor,
            a <- get_assignment ;;
            if bool_decide (neighbor ∈ dom a) then ret conflict_count
            else
              d <- domains_getitem self neighbor ;;
              oks <- map_m (_is_assignment_valid self neighbor) d ;;
              ret (conflict_count + length (filter (λ ok, ok = false) oks))%nat)
         n nbs s
  = (Ok (n + sum_list ((λ neighbor, if decide (neighbor ∈ dom a1) then 0
                                    else rejected self a1 neighbor) <$> nbs)), s).
Proof.
  induction nbs as [|neighbor nbs IH]; intros Hdom n s Ha; simpl.
  - unfold ret. do 2 f_equal. lia.
  - erewrite bind_ok;
      [|apply (count_conflicts_step a1); [apply Hdom; by left|done]].
    rewrite IH; [|intros x Hx; apply Hdom; by right|done].
    do 2 f_equal. symmetry. apply Nat.add_assoc.
Qed.

Lemma neighbors_getitem_run v s :
  ∃ nb, neighbors_getitem v s
        = (Ok (nview (self_neighbors s) v), Store nb (assignment s) (entered s)) ∧
        grows (self_neighbors s) nb.
Proof.
  unfold neighbors_getitem, nview.
  destruct (self_neighbors s !! v) as [l|] eqn:Hl.
  - exists (self_neighbors s). split; [by destruct s|apply grows_refl].
  - exists (<[v := []]> (self_neighbors s)). split; [done|].
    intros w. destruct (decide (v = w)) as [<-|Hne].
    + right. by rewrite lookup_insert_eq.
    + left. by rewrite lookup_insert_ne.
Qed.

Lemma count_conflicts_run variable value s :
  assignment s !! variable = None →
  (∀ neighbor, neighbor ∈ nview (self_neighbors s) variable →
               neighbor ≠ variable → assignment s !! neighbor = None →
               is_Some (domains self !! neighbor)) →
  ∃ nb, count_conflicts self variable value s
        = (Ok (conflicts self (nview (self_neighbors s) variable) (assignment s)
                 variable value),
           Store nb (assignment s) (entered s)) ∧
        grows (self_neighbors s) nb.
Proof.
  intros Hfree Hdom. unfold count_conflicts.
  erewrite bind_ok; [|reflexivity].
  set (a1 := <[variable := value]> (assignment s)).
  destruct (neighbors_getitem_run variable (Store (self_neighbors s) a1 (entered s)))
    as (nb & Hrun1 & Hg1).
  simpl in Hrun1, Hg1. erewrite bind_ok; [|exact Hrun1].
  erewrite bind_ok; [|apply (count_conflicts_loop a1); [|done]].
  - exists nb. split; [|done]. unfold bind, delitem, ret. simpl.
    unfold a1 at 1. rewrite lookup_insert_eq. unfold a1.
    rewrite delete_insert_eq, delete_id by done. done.
  - intros neighbor Hin Hnone. unfold a1 in Hnone.
    destruct (decide (variable = neighbor)) as [<-|Hne].
    + by rewrite lookup_insert_eq in Hnone.
    + rewrite lookup_insert_ne in Hnone by done. by apply Hdom.
Qed.

Lemma map_m_count_conflicts variable d s :
  assignment s !! variable = None →
  (∀ neighbor, neighbor ∈ nview (self_neighbors s) variable →
               neighbor ≠ variable → assignment s !! neighbor = None →
               is_Some (domains self !! neighbor)) →
  ∃ nb, map_m (count_conflicts self variable) d s
        = (Ok (conflicts self (nview (self_neighbors s) variable) (assignment s)
                 variable <$> d),
           Store nb (assignment s) (entered s)) ∧
        grows (self_neighbors s) nb.
Proof.
  revert s. induction d as [|value d IH]; intros s Hfree Hdom; simpl.
  - exists (self_neighbors s). split; [by destruct s|apply grows_refl].
  - destruct (count_conflicts_run variable value s Hfree Hdom) as (nb1 & Hrun1 & Hg1).
    erewrite bind_ok; [|exact Hrun1].
    destruct (IH (Store nb1 (assignment s) (entered s))) as (nb & Hrun & Hg).
    { done. }
    { simpl. intros neighbor Hin. apply Hdom.
      by rewrite <- (grows_nview _ _ variable Hg1). }
    simpl in Hrun, Hg. erewrite bind_ok; [|exact Hrun].
    exists nb. split; [|by eapply grows_trans].
    unfold ret. by rewrite (grows_nview _ _ variable Hg1).
Qed.

End ValueOrder.

(** X11. For a variable that is not assigned, with predicates that return
    and a domain for it and for each of its unassigned neighbors, the value
    orderer returns and leaves the assignment as it was; the list it returns
    is a permutation of the domain in ascending order of the projected
    conflict count. *)
Theorem order_values_sorted (self : CSP) (s : store) (variable : string)
    (d : list Z) :
  predicates_total self →
  assignment s !! variable = None →
  domains self !! variable = Some d →
  (∀ neighbor, neighbor ∈ nview (self_neighbors s) variable →
               neighbor ≠ variable → assignment s !! neighbor = None →
               is_Some (domains self !! neighbor)) →
  ∃ values s',
    _order_values_by_least_conflicts self variable s = (Ok values, s') ∧
    assignment s' = assignment s ∧
    values ≡ₚ d ∧
    StronglySorted
      (λ x y, conflicts self (nview (self_neighbors s) variable) (assignment s)
                variable x
              ≤ conflicts self (nview (self_neighbors s) variable) (assignment s)
                  variable y)
      values.
Proof.
  intros Htot Hfree Hd Hdom. unfold _order_values_by_least_conflicts.
  erewrite bind_ok; [|unfold domains_getitem; rewrite Hd; reflexivity].
  destruct (map_m_count_conflicts self Htot variable d s Hfree Hdom)
    as (nb & Hrun & Hg).
  erewrite bind_ok; [|exact Hrun]. unfold ret.
  eexists _, _. split; [done|]. split; [done|].
  set (f := conflicts self (nview (self_neighbors s) variable) (assignment s) variable).
  rewrite zip_fmap_self. unfold sorted_by_key.
  assert (foldr insert_by_key [] ((λ v, (f v, v)) <$> d) ≡ₚ (λ v, (f v, v)) <$> d)
    as Hperm by apply sort_by_key_perm.
  split.
  - rewrite Hperm, <- list_fmap_compose. by rewrite list_fmap_id.
  - apply keyed_sorted_snd; [apply sort_by_key_sorted|].
    rewrite Hperm. by apply Forall_fmap, Forall_forall.
Qed.

Lemma order_values_sorted_witness :
  ∃ values s',
    _order_values_by_least_conflicts csp "C" store_B2 = (Ok values, s') ∧
    assignment s' = assignment store_B2 ∧
    values ≡ₚ [1; 2; 3]%Z ∧
    StronglySorted
      (λ x y, conflicts csp (nview (self_neighbors store_B2) "C") (assignment store_B2)
                "C" x
              ≤ conflicts csp (nview (self_neighbors store_B2) "C")
                  (assignment store_B2) "C" y)
      values.
Proof.
  apply (order_values_sorted csp store_B2 "C" [1; 2; 3]%Z csp_predicates_total).
  - reflexivity.
  - reflexivity.
  - intros neighbor Hin _ _.
    assert (nview (self_neighbors store_B2) "C" = ["E"; "A"; "B"; "B"]%string) as Hn
      by (vm_compute; reflexivity).
    rewrite Hn in Hin. each_constraint Hin; vm_compute; eauto.
Defined.

(** On [csp] with [B] bound to 2, the value 2 of [C] is tried last: it is
    the one [A] and [E] lose most values to. *)
Example order_values_example :
  (_order_values_by_least_conflicts csp "C" store_B2).1 = Ok [1; 3; 2]%Z.
Proof. vm_compute. reflexivity. Qed.

(** ** Further properties: the selector and the checker at their edges *)

(** X12. The selector raises [ValueError] exactly when every listed variable
    is assigned; a [KeyError] names a listed variable without a domain; a
    variable it returns is listed and not assigned, and the assignment is then
    as it was. *)
Theorem select_next_variable_edges (self : CSP) (s : store) :
  ((_select_next_variable self s).1 = Raise ValueError ↔
   unassigned self (assignment s) = []) ∧
  (∀ k, (_select_next_variable self s).1 = Raise (KeyError k) →
        k ∈ variables self ∧ domains self !! k = None) ∧
  (∀ v, (_select_next_variable self s).1 = Ok v →
        v ∈ variables self ∧ assignment s !! v = None ∧
        assignment (_select_next_variable self s).2 = assignment s).
Proof.
  pose proof (spec_select_next_variable self s) as Hspec. unfold spec in Hspec.
  split; [split|split].
  - destruct (_select_next_variable self s) as [[v|e|] s']; simpl; [done| |done].
    intros [= ->]. by destruct Hspec as [_ [[_ ?]|(k & ? & _)]].
  - intros Hnil. clear Hspec. unfold _select_next_variable.
    erewrite bind_ok; [|reflexivity].
    fold (unassigned self (assignment s)). rewrite Hnil. reflexivity.
  - intros k. destruct (_select_next_variable self s) as [[v|e|] s']; simpl;
      [done| |done].
    intros [= ->]. destruct Hspec as [_ [[? _]|(k' & [= <-] & ? & ?)]]; done.
  - intros v. destruct (_select_next_variable self s) as [[v'|e|] s']; simpl;
      [|done..].
    intros [= ->]. by destruct Hspec as [_ (? & ? & ?)].
Qed.

Lemma check_constraints_relevant variable cs a :
  check_constraints variable (filter (λ c, variable ∈ c_vars c) cs) a =
  check_constraints variable cs a.
Proof.
  induction cs as [|c cs IH]; [done|].
  rewrite filter_cons. destruct (decide (variable ∈ c_vars c)) as [Hin|Hout]; simpl.
  - rewrite bool_decide_eq_true_2 by done. by rewrite IH.
  - rewrite bool_decide_eq_false_2 by done. exact IH.
Qed.

(** X13. The checker looks only at the constraints that range over the
    variable: with all the others removed, whatever their predicates would
    return or raise, a call gives the same result and the same store. *)
Theorem is_assignment_valid_relevant (self : CSP) variable value (s : store) :
  _is_assignment_valid
    (MkCSP (variables self) (domains self)
       (filter (λ c, variable ∈ c_vars c) (constraints self)) (neighbors self))
    variable value s
  = _is_assignment_valid self variable value s.
Proof.
  rewrite !is_assignment_valid_run. simpl. by rewrite check_constraints_relevant.
Qed.

Lemma check_constraints_app variable cs1 cs2 a :
  check_constraints variable (cs1 ++ cs2) a =
  match check_constraints variable cs1 a with
  | Ok true => check_constraints variable cs2 a
  | o => o
  end.
Proof.
  induction cs1 as [|c cs1 IH]; simpl; [done|].
  repeat case_bool_decide; try done.
  destruct (condition c _) as [[]|]; done.
Qed.

(** X14. The checker stops at the first constraint that is violated or whose
    predicate raises: the constraints after it are not evaluated, so a later
    predicate that would raise does not, and the call returns what the
    constraints up to there give. *)
Theorem is_assignment_valid_stops (self : CSP) cs1 cs2 variable value (s : store) :
  constraints self = cs1 ++ cs2 →
  check_constraints variable cs1 (<[variable := value]> (assignment s)) ≠ Ok true →
  (_is_assignment_valid self variable value s).1 =
  check_constraints variable cs1 (<[variable := value]> (assignment s)).
Proof.
  intros Hcs Hstop. rewrite is_assignment_valid_run, Hcs, check_constraints_app.
  destruct (check_constraints variable cs1 _) as [[]| |]; done.
Qed.

Lemma is_assignment_valid_stops_witness :
  (_is_assignment_valid csp_stops "A" 1%Z (Store (neighbors csp_stops) ∅ [])).1 =
  check_constraints "A" [always_false]
    (<["A"%string := 1%Z]> (assignment (Store (neighbors csp_stops) ∅ []))).
Proof.
  apply (is_assignment_valid_stops csp_stops [always_false] [always_raises]).
  - reflexivity.
  - vm_compute. discriminate.
Defined.

(** With the two constraints in the other order the call raises. *)
Example is_assignment_valid_raises_first :
  (_is_assignment_valid
     (__init__ ["A"]%string (list_to_map [("A", [1])]%string%Z)
        [always_raises; always_false])
     "A" 1%Z (Store ∅ ∅ [])).1 = Raise CallRaised.
Proof. vm_compute. reflexivity. Qed.
